(** * placed_vector: a vector that lives in its own footprint up to N elements

    Shallow embedding of [src/placed_vector.h] (namespace [vob]):
    [place_manager], [managed_place], [allocator_in_place] and
    [placed_vector], together with the part of [std::vector] and
    [std::allocator] that [placed_vector] is built on.

    Memory is explicit.  A [world] holds
    - the [place_manager] objects, by the address of the object that embeds
      them (what an [allocator_in_place] points to through [m_place]); an
      address at which nothing was ever constructed holds none, and reading
      through a pointer to it is undefined,
    - the elements constructed in every storage block,
    - the state of the fallback allocator.
    Operations are functions from a world to an [outcome]: a result with the
    new world, a thrown [std::bad_alloc], or undefined behaviour.

    The fallback allocator is [std::allocator], the only one the class
    template accepts as it is written: [rebind] and the converting
    constructor name [allocator_in_place<U>], that is, the default second
    argument. *)

From stdpp Require Import base option list gmap.

(** ** Pointers and outcomes *)

(** A [T*] (or [byte*]) is null, the address [&bytes[0]] of the inline
    buffer of the [managed_place] at address [o], or a block handed out by the
    fallback allocator. *)
Inductive pointer : Type :=
  | nullptr
  | bytes_of (o : nat)
  | heap_block (k : nat).

#[global] Instance pointer_eq_dec : EqDecision pointer.
Proof. solve_decision. Defined.

#[global] Instance pointer_countable : Countable pointer.
Proof.
  refine (inj_countable'
    (fun p => match p with
              | nullptr => inl tt
              | bytes_of o => inr (inl o)
              | heap_block k => inr (inr k)
              end)
    (fun s => match s with
              | inl _ => nullptr
              | inr (inl o) => bytes_of o
              | inr (inr k) => heap_block k
              end) _).
  intros []; reflexivity.
Defined.

(** What a call can do: return, throw [std::bad_alloc] (only the fallback
    allocator does), or be undefined (a null or dangling dereference, a
    release of a block the allocator does not own, an access out of range). *)
Inductive outcome (A : Type) : Type :=
  | Ret (a : A)
  | Throw
  | Undefined.
Arguments Ret {A} a.
Arguments Throw {A}.
Arguments Undefined {A}.

Definition obind {A B : Type} (m : outcome A) (k : A -> outcome B) : outcome B :=
  match m with
  | Ret a => k a
  | Throw => Throw
  | Undefined => Undefined
  end.

(** ** place_manager and managed_place *)

Module place_manager.
Record t : Type := mk {
  is_used : bool;
  is_enabled : bool;
  p_bytes : pointer;
  size : nat
}.

(** [place_manager(byte* p_bytes, std::size_t size)] *)
Definition construct (p : pointer) (n : nat) : t :=
  {| is_used := false; is_enabled := true; p_bytes := p; size := n |}.

Definition set_is_used (b : bool) (pm : t) : t :=
  {| is_used := b; is_enabled := is_enabled pm;
     p_bytes := p_bytes pm; size := size pm |}.

Definition set_is_enabled (b : bool) (pm : t) : t :=
  {| is_used := is_used pm; is_enabled := b;
     p_bytes := p_bytes pm; size := size pm |}.
End place_manager.

Module managed_place.
(** [managed_place() : place_manager(&bytes[0], N)], for the object at
    address [this]. *)
Definition construct (N : nat) (this : nat) : place_manager.t :=
  place_manager.construct (bytes_of this) N.
End managed_place.

(** ** The world *)

(** The fallback allocator is [std::allocator]: it has no state of its own and
    draws from the free store, which has [avail] elements left, hands out
    blocks that were never handed out before, and remembers the size of every
    live block. *)
Record heap : Type := Heap {
  live : gmap nat nat;
  next : nat;
  avail : nat
}.

Section World.
Context {T : Type}.

Record world : Type := World {
  places : gmap nat place_manager.t;
  store : gmap pointer (list T);
  free_store : heap
}.

Definition set_places (f : gmap nat place_manager.t -> gmap nat place_manager.t)
    (w : world) : world :=
  {| places := f (places w); store := store w; free_store := free_store w |}.

Definition set_store (f : gmap pointer (list T) -> gmap pointer (list T))
    (w : world) : world :=
  {| places := places w; store := f (store w); free_store := free_store w |}.

Definition set_free_store (h : heap) (w : world) : world :=
  {| places := places w; store := store w; free_store := h |}.

(** The elements constructed in the block at [p]. *)
Definition contents (w : world) (p : pointer) : list T :=
  default [] (store w !! p).

(** A computation on the world. *)
Definition M (A : Type) : Type := world -> outcome (A * world).

Definition ret {A : Type} (a : A) : M A := fun w => Ret (a, w).

Definition bind {A B : Type} (m : M A) (k : A -> M B) : M B :=
  fun w => obind (m w) (fun aw => k (fst aw) (snd aw)).

Definition modify (f : world -> world) : M unit := fun w => Ret (tt, f w).

Definition undefined {A : Type} : M A := fun _ => Undefined.

(** A read that does not change the world. *)
Definition inspect {A : Type} (f : world -> outcome A) : M A :=
  fun w => obind (f w) (fun a => Ret (a, w)).
End World.
Arguments world T : clear implicits.
Arguments M T A : clear implicits.

Notation "'let!' x ':=' m 'in' k" := (bind m (fun x => k))
  (at level 10, x name, m at level 100, k at level 200).
Notation "'do!' m 'in' k" := (bind m (fun _ => k))
  (at level 10, m at level 100, k at level 200).

(** ** std::allocator, the default fallback *)

Module std_allocator.
Section Ops.
Context {T : Type}.

(** [allocate(n, hint)]: a block never seen before, or [std::bad_alloc]
    when the free store cannot hold [n] more elements. *)
Definition allocate (n : nat) : M T pointer := fun w =>
  let h := free_store w in
  if decide (n <= avail h) then
    Ret (heap_block (next h),
         set_free_store {| live := <[next h := n]> (live h);
                           next := S (next h);
                           avail := avail h - n |} w)
  else Throw.

(** [deallocate(p, n)]: [p] must be a live block of this allocator, of
    [n] elements. *)
Definition deallocate (p : pointer) (n : nat) : M T unit := fun w =>
  let h := free_store w in
  match p with
  | heap_block k =>
      if decide (live h !! k = Some n) then
        Ret (tt, set_free_store {| live := delete k (live h);
                                   next := next h;
                                   avail := avail h + n |} w)
      else Undefined
  | _ => Undefined
  end.
End Ops.
End std_allocator.

(** ** allocator_in_place *)

Module allocator_in_place.
(** [m_place] is a pointer to a [place_manager]: [None] is [nullptr],
    [Some o] points to the one at address [o].  [m_allocator] has no state. *)
Record t : Type := mk { m_place : option nat }.

(** [allocator_in_place(const allocator_type& alloc = allocator_type(),
    place_manager<T>* place = nullptr)] *)
Definition construct (place : option nat) : t := {| m_place := place |}.

(** The same constructor with its default arguments. *)
Definition construct_default : t := construct None.

(** [allocator_in_place(const allocator_in_place<T, allocator_type>&)] *)
Definition copy (alloc : t) : t := {| m_place := m_place alloc |}.

(** [template <typename U> allocator_in_place(const allocator_in_place<U>&)],
    the converting constructor that [rebind] relies on. *)
Definition convert (other : t) : t := {| m_place := None |}.

Section Ops.
Context {T : Type}.

Definition allocate (a : t) (n : nat) : M T pointer := fun w =>
  match m_place a with
  | Some o =>
      match places w !! o with
      | Some pm =>
          if place_manager.is_enabled pm
             && negb (place_manager.is_used pm)
             && bool_decide (n <= place_manager.size pm)
          then
            Ret (place_manager.p_bytes pm,
                 set_places <[o := place_manager.set_is_used true pm]> w)
          else std_allocator.allocate n w
      | None => Undefined
      end
  | None => std_allocator.allocate n w
  end.

Definition deallocate (a : t) (p : pointer) (n : nat) : M T unit := fun w =>
  match m_place a with
  | Some o =>
      match places w !! o with
      | Some pm =>
          if decide (p = place_manager.p_bytes pm) then
            Ret (tt, set_places
                       <[o := place_manager.set_is_used false pm]> w)
          else std_allocator.deallocate p n w
      | None => Undefined
      end
  | None => Undefined
  end.

Definition is_in_place (a : t) (w : world T) : outcome bool :=
  match m_place a with
  | None => Ret false
  | Some o =>
      match places w !! o with
      | Some pm => Ret (place_manager.is_used pm)
      | None => Undefined
      end
  end.
End Ops.
End allocator_in_place.

(** ** std::vector over allocator_in_place

    The vector keeps its block, its size and its capacity, and asks its
    allocator for every block.  A reallocation obtains the new block first,
    moves the elements, and only then releases the old block; [reserve] and
    [shrink_to_fit] ask for exactly the capacity they are after, and an
    append to a full vector asks for [growth capacity]. *)

Module vector.
Record t : Type := mk {
  data : pointer;
  size : nat;
  capacity : nat;
  alloc : allocator_in_place.t
}.

Definition set_size (n : nat) (v : t) : t :=
  {| data := data v; size := n; capacity := capacity v; alloc := alloc v |}.

Definition get_allocator (v : t) : allocator_in_place.t :=
  allocator_in_place.copy (alloc v).

Section Ops.
Context {T : Type}.
Variable growth : nat -> nat.

(** The element sequence of [v]. *)
Definition elements (v : t) (w : world T) : list T :=
  take (size v) (contents w (data v)).

(** [vector(const Allocator&)] *)
Definition construct (a : allocator_in_place.t) : t :=
  {| data := nullptr; size := 0; capacity := 0; alloc := a |}.

(** [vector(const vector& other, const Allocator&)]: room for exactly
    the elements of [other], and none when [other] is empty. *)
Definition copy_construct (other : t) (a : allocator_in_place.t) : M T t :=
  fun w =>
  let xs := elements other w in
  if decide (size other = 0) then Ret (construct a, w)
  else
    (let! p := allocator_in_place.allocate a (size other) in
     do! modify (set_store <[p := xs]>) in
     ret {| data := p; size := size other;
            capacity := size other; alloc := a |}) w.

(** Destroy the elements and give the block back, if there is one. *)
Definition release (v : t) : M T unit :=
  if decide (data v = nullptr) then ret tt
  else
    do! modify (set_store (delete (data v))) in
    allocator_in_place.deallocate (alloc v) (data v) (capacity v).

(** Move to a new block of [n] elements. *)
Definition reallocate (n : nat) (v : t) : M T t := fun w =>
  let xs := elements v w in
  (let! p := allocator_in_place.allocate (alloc v) n in
   do! modify (set_store <[p := xs]>) in
   do! release v in
   ret {| data := p; size := size v; capacity := n; alloc := alloc v |}) w.

Definition reserve (n : nat) (v : t) : M T t :=
  if decide (capacity v < n) then reallocate n v else ret v.

(** Release the block and go back to the empty state. *)
Definition tidy (v : t) : M T t :=
  do! release v in
  ret {| data := nullptr; size := 0; capacity := 0; alloc := alloc v |}.

Definition shrink_to_fit (v : t) : M T t :=
  if decide (size v < capacity v) then
    if decide (size v = 0) then tidy v else reallocate (size v) v
  else ret v.

Definition push_back (x : T) (v : t) : M T t :=
  let! v' := (if decide (size v = capacity v)
              then reallocate (growth (capacity v)) v else ret v) in
  (fun w => Ret (set_size (S (size v')) v',
                 set_store <[data v' := elements v' w ++ [x]]> w)).

Definition pop_back (v : t) : M T t :=
  if decide (size v = 0) then undefined
  else ret (set_size (size v - 1) v).

Definition clear (v : t) : M T t := ret (set_size 0 v).

(** [v[i] = x] *)
Definition assign_at (i : nat) (x : T) (v : t) : M T t :=
  if decide (i < size v) then
    (fun w => Ret (v, set_store <[data v := <[i := x]> (elements v w)]> w))
  else undefined.
End Ops.
End vector.

(** ** placed_vector *)

Module placed_vector.
(** A [placed_vector] object at address [this]: its [std::vector] base, and
    its member [m_place], which lives in the world at [this] so that the
    allocator of the base can point to it. *)
Record t : Type := mk {
  this : nat;
  base : vector.t
}.

Section Ops.
Context {T : Type}.
Variable N : nat.
Variable growth : nat -> nat.

Definition with_base (pv : t) (v : vector.t) : t :=
  {| this := this pv; base := v |}.

Definition size (pv : t) : nat := vector.size (base pv).
Definition capacity (pv : t) : nat := vector.capacity (base pv).
Definition elements (pv : t) (w : world T) : list T :=
  vector.elements (base pv) w.
Definition get_allocator (pv : t) : allocator_in_place.t :=
  vector.get_allocator (base pv).

(** The members of [std::vector], seen through the derived class. *)
Definition lift (f : vector.t -> M T vector.t) (pv : t) : M T t :=
  let! v := f (base pv) in ret (with_base pv v).

Definition reserve (n : nat) : t -> M T t := lift (vector.reserve n).
Definition shrink_to_fit : t -> M T t := lift vector.shrink_to_fit.
Definition push_back (x : T) : t -> M T t :=
  lift (vector.push_back growth x).
Definition pop_back : t -> M T t := lift vector.pop_back.
Definition clear : t -> M T t := lift vector.clear.
Definition assign_at (i : nat) (x : T) : t -> M T t :=
  lift (vector.assign_at i x).

(** [placed_vector(const A& alloc = A())], for the object at [self].  The
    base is built first and only stores the allocator; then the member
    [m_place] is constructed; then the body runs. *)
Definition construct (self : nat) : M T t :=
  let v := vector.construct (allocator_in_place.construct (Some self)) in
  do! modify (set_places <[self := managed_place.construct N self]>) in
  let! v := vector.reserve N v in
  ret {| this := self; base := v |}.

(** [placed_vector(const placed_vector& other)], for the object at [self].
    The base copies the elements of [other] through an allocator that
    already points to [m_place] of the new object; the member [m_place]
    is constructed after that; the body is empty.  The fallback that
    [get_allocator().get_allocator()] names is the stateless
    [std::allocator]. *)
Definition copy_construct (self : nat) (other : t) : M T t :=
  let! v := vector.copy_construct (base other)
              (allocator_in_place.construct (Some self)) in
  do! modify (set_places <[self := managed_place.construct N self]>) in
  ret {| this := self; base := v |}.

Definition size_in_place (pv : t) : nat := N.

Definition is_in_place (pv : t) (w : world T) : outcome bool :=
  allocator_in_place.is_in_place (get_allocator pv) w.

(** [m_place.is_enabled = b] *)
Definition set_enabled (b : bool) (pv : t) : M T unit :=
  modify (set_places (alter (place_manager.set_is_enabled b) (this pv))).

Definition put_in_place (pv : t) : M T (bool * t) :=
  let! in_place := inspect (is_in_place pv) in
  if in_place && bool_decide (capacity pv = N) then ret (true, pv)
  else if decide (N < size pv) then ret (false, pv)
  else
    let! pv := reserve (N + 1) pv in
    do! (if decide (size pv <> N) then set_enabled false pv else ret tt) in
    let! pv := shrink_to_fit pv in
    do! set_enabled true pv in
    let! pv := reserve N pv in
    let! in_place := inspect (is_in_place pv) in
    ret (if in_place then true else false, pv).
End Ops.
End placed_vector.

(** * Specification *)

(** The block a [placed_vector] holds, and the address of its own buffer. *)
Abbreviation data_of pv := (vector.data (placed_vector.base pv)).
Abbreviation inline_of pv := (bytes_of (placed_vector.this pv)).

Section Specification.
Context {T : Type}.
Variable N : nat.
Variable growth : nat -> nat.

Implicit Types (pv : placed_vector.t) (v : vector.t) (w : world T).

(** ** The invariant *)

(** The block the vector holds is its own: nothing, the inline buffer of
    this very object (of at most [N] elements), or a live block of the
    fallback allocator of exactly the vector's capacity. *)
Definition owns_block pv w : Prop :=
  match data_of pv with
  | nullptr => placed_vector.capacity pv = 0
  | bytes_of o => o = placed_vector.this pv /\ placed_vector.capacity pv <= N
  | heap_block k =>
      live (free_store w) !! k = Some (placed_vector.capacity pv)
      /\ k < next (free_store w)
  end.

(** The descriptor of the object is the one its allocator points to,
    describes the object's own buffer, and is marked used exactly when the
    vector sits in that buffer.  [en] is the value of [is_enabled], which
    is [true] between two operations. *)
Definition bound_descriptor (en : bool) pv w : Prop :=
  allocator_in_place.m_place (vector.alloc (placed_vector.base pv))
    = Some (placed_vector.this pv)
  /\ exists pm,
       places w !! placed_vector.this pv = Some pm
       /\ place_manager.p_bytes pm = bytes_of (placed_vector.this pv)
       /\ place_manager.size pm = N
       /\ place_manager.is_enabled pm = en
       /\ place_manager.is_used pm
          = bool_decide (data_of pv
                         = bytes_of (placed_vector.this pv)).

Definition consistent (en : bool) pv w : Prop :=
  bound_descriptor en pv w
  /\ owns_block pv w
  /\ placed_vector.size pv <= placed_vector.capacity pv
  /\ placed_vector.size pv
     <= length (contents w (data_of pv)).

(** ** put_in_place after its guards *)

(** The five steps that follow the guards, as one computation. *)
Definition coerce pv : M T (bool * placed_vector.t) :=
  let! pv := placed_vector.reserve (N + 1) pv in
  do! (if decide (placed_vector.size pv <> N)
       then placed_vector.set_enabled false pv else ret tt) in
  let! pv := placed_vector.shrink_to_fit pv in
  do! placed_vector.set_enabled true pv in
  let! pv := placed_vector.reserve N pv in
  let! in_place := inspect (placed_vector.is_in_place pv) in
  ret (if in_place then true else false, pv).

(** ** What a client does with a placed_vector *)

Inductive operation : Type :=
  | PushBack (x : T)
  | PopBack
  | Clear
  | AssignAt (i : nat) (x : T)
  | Reserve (n : nat)
  | ShrinkToFit
  | PutInPlace.

Definition apply (o : operation) pv : M T placed_vector.t :=
  match o with
  | PushBack x => placed_vector.push_back growth x pv
  | PopBack => placed_vector.pop_back pv
  | Clear => placed_vector.clear pv
  | AssignAt i x => placed_vector.assign_at i x pv
  | Reserve n => placed_vector.reserve n pv
  | ShrinkToFit => placed_vector.shrink_to_fit pv
  | PutInPlace => let! r := placed_vector.put_in_place N pv in ret (snd r)
  end.

Fixpoint applies (os : list operation) pv : M T placed_vector.t :=
  match os with
  | [] => ret pv
  | o :: os => let! pv := apply o pv in applies os pv
  end.

(** The operations that only grow the vector, and what they append. *)
Definition grows (o : operation) : bool :=
  match o with
  | PushBack _ | Reserve _ => true
  | _ => false
  end.

Definition pushed (os : list operation) : list T :=
  omap (fun o => match o with PushBack x => Some x | _ => None end) os.

(** The states of a [placed_vector] over its life: it is constructed, by
    default or as a copy into storage that holds no descriptor yet, and
    then operated on; every call returns. *)
Inductive reachable : placed_vector.t -> world T -> Prop :=
  | reachable_construct self w0 pv w :
      placed_vector.construct N self w0 = Ret (pv, w) ->
      reachable pv w
  | reachable_copy self other w0 pv w :
      places w0 !! self = None ->
      placed_vector.copy_construct N self other w0 = Ret (pv, w) ->
      reachable pv w
  | reachable_apply o pv w pv' w' :
      reachable pv w ->
      apply o pv w = Ret (pv', w') ->
      reachable pv' w'.
End Specification.

(** ** What an operation leaves alone, and what it owes the free store *)

Section Effects.
Context {T : Type}.
Variable N : nat.
Variable growth : nat -> nat.

Implicit Types (pv : placed_vector.t) (w : world T) (p : pointer).

(** The elements of fallback memory the vector holds. *)
Definition held pv : nat :=
match data_of pv with
| heap_block _ => placed_vector.capacity pv
| _ => 0
end.

(** A block that is not the vector's: neither the one it holds nor its
  inline buffer, nor a block the fallback allocator has yet to hand out. *)
Definition foreign pv w p : Prop :=
p <> nullptr
/\ p <> data_of pv
/\ p <> inline_of pv
/\ forall k, p = heap_block k -> k < next (free_store w).

(** From [(pv, w)] to [(pv', w')] nothing but the vector's own descriptor
  and blocks has changed. *)
Definition untouched pv w pv' w' : Prop :=
placed_vector.this pv' = placed_vector.this pv
/\ (forall o, o <> placed_vector.this pv -> places w' !! o = places w !! o)
/\ (forall p, foreign pv w p ->
      foreign pv' w' p /\ store w' !! p = store w !! p)
/\ (forall k, foreign pv w (heap_block k) ->
      live (free_store w') !! k = live (free_store w) !! k).

(** The element sequence an operation leads to, on plain lists. *)
Definition denote (o : operation (T := T)) (l : list T) : list T :=
match o with
| PushBack x => l ++ [x]
| PopBack => take (length l - 1) l
| Clear => []
| AssignAt i x => <[i := x]> l
| Reserve _ | ShrinkToFit | PutInPlace => l
end.

(** Two vectors that share a world and nothing else. *)
Definition paired pv1 pv2 w : Prop :=
consistent N true pv1 w
/\ consistent N true pv2 w
/\ placed_vector.this pv1 <> placed_vector.this pv2
/\ (data_of pv1 = data_of pv2 -> data_of pv1 = nullptr).

(** Two default-constructed vectors at different addresses of one world,
  each operated on in any interleaving. *)
Inductive pair_reachable : placed_vector.t -> placed_vector.t -> world T -> Prop :=
| pair_construct s1 s2 w0 pv1 w1 pv2 w2 :
    s1 <> s2 ->
    placed_vector.construct N s1 w0 = Ret (pv1, w1) ->
    placed_vector.construct N s2 w1 = Ret (pv2, w2) ->
    pair_reachable pv1 pv2 w2
| pair_left o pv1 pv2 w pv1' w' :
    pair_reachable pv1 pv2 w ->
    apply N growth o pv1 w = Ret (pv1', w') ->
    pair_reachable pv1' pv2 w'
| pair_right o pv1 pv2 w pv2' w' :
    pair_reachable pv1 pv2 w ->
    apply N growth o pv2 w = Ret (pv2', w') ->
    pair_reachable pv1 pv2' w'.
End Effects.

(** ** A concrete instance: four inline integers *)

(** One and a half times the capacity, and at least one more element. *)
Definition growth_by_half (c : nat) : nat := Nat.max (c + c / 2) (c + 1).

Definition empty_world : world nat :=
  {| places := ∅; store := ∅;
     free_store := {| live := ∅; next := 0; avail := 1000 |} |}.

(** The result of a call that returned. *)
Definition returned {A : Type} (d : A) (o : outcome A) : A :=
  match o with
  | Ret a => a
  | _ => d
  end.

Definition no_vector : placed_vector.t :=
  {| placed_vector.this := 0;
     placed_vector.base :=
       vector.construct allocator_in_place.construct_default |}.

(** A [placed_vector<int, 4>] at address [7] after the given operations. *)
Definition after (os : list (operation (T := nat))) : placed_vector.t * world nat :=
  returned (no_vector, empty_world)
    ((let! pv := placed_vector.construct 4 7 in
      applies 4 growth_by_half os pv) empty_world).

Definition fresh : placed_vector.t * world nat := after [].

(** After appending 1, 2, ..., n. *)
Definition grown (n : nat) : placed_vector.t * world nat :=
  after (map PushBack (seq 1 n)).

(** After appending 1, ..., 5 and removing the last two elements. *)
Definition shrunk : placed_vector.t * world nat :=
  after (map PushBack (seq 1 5) ++ [PopBack; PopBack]).

(** The world of [grown 3] in which the storage at address [8] is that of
    an earlier [placed_vector<int, 4>]: its descriptor is as the destructor
    of that object left it. *)
Definition recycled : world nat :=
  set_places <[8 := managed_place.construct 4 8]> (snd (grown 3)).

(** A copy of [fresh], constructed at address [8]. *)
Definition copied : placed_vector.t * world nat :=
  returned (no_vector, empty_world)
    (placed_vector.copy_construct 4 8 (fst fresh) (snd fresh)).

(** [shrunk] after [put_in_place()], and after appending [9] instead. *)
Definition settled : placed_vector.t * world nat :=
  after (map PushBack (seq 1 5) ++ [PopBack; PopBack; PutInPlace]).

Definition appended : placed_vector.t * world nat :=
  after (map PushBack (seq 1 5) ++ [PopBack; PopBack; PushBack 9]).

(** Two elements, in a fallback block of two after [shrink_to_fit()]. *)
Definition trimmed : placed_vector.t * world nat :=
  after [PushBack 1; PushBack 2; ShrinkToFit].

(** A [std::vector] that holds a block of one element and whose allocator
    was given no place. *)
Definition stray : vector.t :=
  {| vector.data := heap_block 0; vector.size := 1; vector.capacity := 1;
     vector.alloc := allocator_in_place.construct_default |}.

(** Two [placed_vector<int, 4>], at addresses [7] and [8]; the first holds
    1, 2, 3. *)
Definition twins : placed_vector.t * placed_vector.t * world nat :=
  returned (no_vector, no_vector, empty_world)
    ((let! pv1 := placed_vector.construct 4 7 in
      let! pv2 := placed_vector.construct 4 8 in
      let! pv1 := applies 4 growth_by_half (map PushBack (seq 1 3)) pv1 in
      ret (pv1, pv2)) empty_world).

(** The first of the [twins] after [shrink_to_fit()], which moves it to a
    fallback block. *)
Definition twins_after : placed_vector.t * world nat :=
  returned (no_vector, empty_world)
    (apply 4 growth_by_half ShrinkToFit (fst (fst twins)) (snd twins)).

(** The world of [shrunk] once its allocator has handed out the inline
    buffer. *)
Definition handed_out : world nat :=
  set_places <[7 := place_manager.set_is_used true
                      (place_manager.construct (bytes_of 7) 4)]>
    (snd shrunk).

(** The same as [trimmed], from a free store of four elements. *)
Definition tight_world : world nat :=
  {| places := ∅; store := ∅;
     free_store := {| live := ∅; next := 0; avail := 4 |} |}.

Definition tight : placed_vector.t * world nat :=
  returned (no_vector, empty_world)
    ((let! pv := placed_vector.construct 4 7 in
      applies 4 growth_by_half [PushBack 1; PushBack 2; ShrinkToFit] pv)
       tight_world).

(** Three elements in place with capacity three, and the same after one
    more append. *)
Definition reserved : placed_vector.t * world nat :=
  after [PushBack 1; PushBack 2; ShrinkToFit; Reserve 3; PushBack 3].

Definition regrown : placed_vector.t * world nat :=
  after [PushBack 1; PushBack 2; ShrinkToFit; Reserve 3; PushBack 3;
         PushBack 4].

(** * Verification *)

Section Verification.
Context {T : Type}.
Variable N : nat.

Implicit Types (pv : placed_vector.t) (v : vector.t) (w : world T).


(** ** Running a computation step by step *)

Lemma bind_Ret {A B : Type} (m : M T A) (k : A -> M T B) w a w' :
  m w = Ret (a, w') -> bind m k w = k a w'.
Proof. unfold bind. by intros ->. Qed.

Lemma bind_Throw {A B : Type} (m : M T A) (k : A -> M T B) w :
  m w = Throw -> bind m k w = Throw.
Proof. unfold bind. by intros ->. Qed.

Ltac unfold_ops :=
  unfold placed_vector.reserve, placed_vector.shrink_to_fit,
    placed_vector.push_back, placed_vector.pop_back, placed_vector.clear,
    placed_vector.assign_at, placed_vector.lift, placed_vector.with_base,
    placed_vector.is_in_place, placed_vector.get_allocator,
    placed_vector.set_enabled, placed_vector.size, placed_vector.capacity,
    placed_vector.elements,
    vector.reserve, vector.shrink_to_fit, vector.tidy, vector.reallocate,
    vector.release, vector.push_back, vector.pop_back, vector.clear,
    vector.assign_at, vector.get_allocator, vector.elements, vector.set_size,
    vector.construct,
    allocator_in_place.allocate, allocator_in_place.deallocate,
    allocator_in_place.is_in_place, allocator_in_place.copy,
    allocator_in_place.construct,
    std_allocator.allocate, std_allocator.deallocate,
    place_manager.set_is_used, place_manager.set_is_enabled,
    bind, ret, modify, inspect, undefined, obind,
    set_places, set_store, set_free_store, contents in *.

Ltac open_state pv w :=
  destruct pv as [self [d s c [mp]]];
  destruct w as [pl st [lv nx av]];
  unfold consistent, bound_descriptor, owns_block in *;
  unfold_ops; simpl in *.

Ltac branches :=
  repeat (match goal with
          | |- context [decide ?P] => destruct (decide P)
          | |- context [bool_decide ?P] => destruct (bool_decide_reflect P)
          end; simpl; try lia; try done).

Ltac finish :=
  simplify_map_eq/=;
  rewrite ?length_take, ?take_take, ?Nat.min_id;
  split_and?; eauto; try lia; try done;
  try (intuition (first [lia | congruence | done]));
  try (eexists; split_and!; eauto; simpl;
       rewrite ?bool_decide_eq_true_2, ?bool_decide_eq_false_2 by done;
       done).

Lemma reallocate_spec en pv w n :
  consistent N en pv w -> 0 < n -> placed_vector.size pv <= n ->
  match vector.reallocate n (placed_vector.base pv) w with
  | Ret (v', w') =>
      consistent N en (placed_vector.with_base pv v') w'
      /\ vector.size v' = placed_vector.size pv
      /\ vector.capacity v' = n
      /\ vector.elements v' w' = placed_vector.elements pv w
      /\ (vector.data v' = bytes_of (placed_vector.this pv) <->
          en = true
          /\ vector.data (placed_vector.base pv)
             <> bytes_of (placed_vector.this pv)
          /\ n <= N)
      /\ (vector.data v' = bytes_of (placed_vector.this pv) ->
          next (free_store w') = next (free_store w))
  | Throw => avail (free_store w) < n
  | Undefined => False
  end.
Proof.
  intros (Hd & Hb & Hsc & Hlen) Hn Hsn.
  open_state pv w.
  destruct Hd as (-> & pm & Hpm & Hpb & Hsz & Hen & Hus).
  destruct pm as [us en' pb sz]; simpl in *; subst.
  rewrite Hpm; simpl.
  destruct d as [|o|k]; [| destruct Hb as [-> Hb] |].
  - rewrite bool_decide_eq_false_2 in * by done.
    destruct en; simpl; branches; finish.
  - rewrite bool_decide_eq_true_2 in * by done.
    destruct en; simpl; branches; finish.
  - rewrite bool_decide_eq_false_2 in * by done.
    destruct Hb as [Hk Hlt].
    assert (k <> nx) by lia. assert (nx <> k) by lia.
    assert (heap_block k <> heap_block nx) by congruence.
    destruct en; simpl; branches; finish.
Qed.

Lemma reserve_spec en pv w n :
  consistent N en pv w ->
  match placed_vector.reserve n pv w with
  | Ret (pv', w') =>
      consistent N en pv' w'
      /\ placed_vector.this pv' = placed_vector.this pv
      /\ placed_vector.size pv' = placed_vector.size pv
      /\ placed_vector.elements pv' w' = placed_vector.elements pv w
      /\ (n <= placed_vector.capacity pv -> pv' = pv /\ w' = w)
      /\ (placed_vector.capacity pv < n ->
          placed_vector.capacity pv' = n
          /\ (vector.data (placed_vector.base pv')
                = bytes_of (placed_vector.this pv) <->
              en = true
              /\ vector.data (placed_vector.base pv)
                 <> bytes_of (placed_vector.this pv)
              /\ n <= N)
          /\ (vector.data (placed_vector.base pv')
                = bytes_of (placed_vector.this pv) ->
              next (free_store w') = next (free_store w)))
  | Throw => True
  | Undefined => False
  end.
Proof.
  intros Hc.
  unfold placed_vector.reserve, placed_vector.lift, vector.reserve.
  destruct (decide (vector.capacity (placed_vector.base pv) < n)) as [Hlt|Hge].
  - assert (Hsz : placed_vector.size pv <= n).
    { destruct Hc as (_ & _ & ? & _).
      unfold placed_vector.size, placed_vector.capacity in *. lia. }
    pose proof (reallocate_spec en pv w n Hc ltac:(lia) Hsz) as Hr.
    unfold bind at 1.
    destruct (vector.reallocate n (placed_vector.base pv) w)
      as [[v' w']| |]; simpl; [|done..].
    destruct Hr as (? & ? & ? & ? & ? & ?).
    unfold placed_vector.capacity. split_and!; eauto; lia.
  - unfold bind, ret; simpl. destruct pv as [self v]; simpl in *.
    unfold placed_vector.capacity; simpl.
    split_and!; eauto; lia.
Qed.

Lemma tidy_spec en pv w :
  consistent N en pv w ->
  match vector.tidy (placed_vector.base pv) w with
  | Ret (v', w') =>
      consistent N en (placed_vector.with_base pv v') w'
      /\ vector.data v' = nullptr
      /\ vector.size v' = 0
      /\ vector.capacity v' = 0
  | _ => False
  end.
Proof.
  intros (Hd & Hb & Hsc & Hlen).
  open_state pv w.
  destruct Hd as (-> & pm & Hpm & Hpb & Hsz & Hen & Hus).
  destruct pm as [us en' pb sz]; simpl in *; subst.
  destruct d as [|o|k]; [| destruct Hb as [-> Hb] |].
  - rewrite bool_decide_eq_false_2 in * by done. simpl. finish.
  - rewrite bool_decide_eq_true_2 in * by done.
    simpl; rewrite Hpm; simpl; branches; finish.
  - rewrite bool_decide_eq_false_2 in * by done.
    destruct Hb as [Hk Hlt].
    simpl; rewrite Hpm; simpl; branches; finish.
Qed.

Lemma shrink_to_fit_spec en pv w :
  consistent N en pv w ->
  match placed_vector.shrink_to_fit pv w with
  | Ret (pv', w') =>
      consistent N en pv' w'
      /\ placed_vector.this pv' = placed_vector.this pv
      /\ placed_vector.size pv' = placed_vector.size pv
      /\ placed_vector.elements pv' w' = placed_vector.elements pv w
      /\ (placed_vector.size pv = placed_vector.capacity pv ->
          pv' = pv /\ w' = w)
      /\ (placed_vector.size pv < placed_vector.capacity pv ->
          placed_vector.capacity pv' = placed_vector.size pv
          /\ (vector.data (placed_vector.base pv')
                = bytes_of (placed_vector.this pv) <->
              en = true
              /\ vector.data (placed_vector.base pv)
                 <> bytes_of (placed_vector.this pv)
              /\ 0 < placed_vector.size pv <= N))
  | Throw => True
  | Undefined => False
  end.
Proof.
  intros Hc.
  assert (Hsc : placed_vector.size pv <= placed_vector.capacity pv)
    by apply Hc.
  unfold placed_vector.shrink_to_fit, placed_vector.lift,
    vector.shrink_to_fit.
  unfold placed_vector.size, placed_vector.capacity in *.
  destruct (decide (vector.size (placed_vector.base pv)
                    < vector.capacity (placed_vector.base pv))) as [Hlt|Hge].
  - destruct (decide (vector.size (placed_vector.base pv) = 0)) as [Hz|Hnz].
    + pose proof (tidy_spec en pv w Hc) as Hr.
      unfold bind at 1.
      destruct (vector.tidy (placed_vector.base pv) w)
        as [[v' w']| |]; simpl; [|done..].
      destruct Hr as (? & Hnull & Hs0 & Hc0).
      unfold placed_vector.elements, vector.elements; simpl.
      rewrite Hs0, Hz, Hnull. simpl.
      split_and!; eauto; try lia.
      intros _. split; [done|]. split; [done | intros (_ & _ & ? & _); lia].
    + pose proof (reallocate_spec en pv w
                    (vector.size (placed_vector.base pv)) Hc
                    ltac:(lia) ltac:(done)) as Hr.
      unfold bind at 1.
      destruct (vector.reallocate _ (placed_vector.base pv) w)
        as [[v' w']| |]; simpl; [|done..].
      destruct Hr as (? & ? & ? & ? & Hiff & ?).
      split_and!; eauto; try lia.
      rewrite Hiff. intros _. split; [done|].
      unfold placed_vector.size. intuition lia.
  - unfold bind, ret; simpl. destruct pv as [self v]; simpl in *.
    split_and!; eauto; lia.
Qed.

(** Constructing one more element in a block that has room. *)
Lemma construct_at_end_spec en pv w x :
  consistent N en pv w ->
  placed_vector.size pv < placed_vector.capacity pv ->
  let v := placed_vector.base pv in
  let pv' := placed_vector.with_base pv (vector.set_size (S (vector.size v)) v) in
  let w' := set_store <[vector.data v := vector.elements v w ++ [x]]> w in
  consistent N en pv' w'
  /\ placed_vector.elements pv' w' = placed_vector.elements pv w ++ [x].
Proof.
  intros (Hd & Hb & Hsc & Hlen) Hroom.
  open_state pv w.
  destruct Hd as (-> & pm & Hpm & Hpb & Hsz & Hen & Hus).
  assert (Hl : length (take s (default [] (st !! d)) ++ [x]) = S s).
  { rewrite length_app, length_take. simpl. lia. }
  rewrite lookup_insert_eq; simpl. rewrite Hl.
  rewrite take_ge by lia.
  split_and!; eauto 10; lia.
Qed.


Lemma pop_back_spec en pv w :
  consistent N en pv w ->
  match placed_vector.pop_back pv w with
  | Ret (pv', w') =>
      0 < placed_vector.size pv
      /\ consistent N en pv' w'
      /\ placed_vector.this pv' = placed_vector.this pv
      /\ placed_vector.size pv' = placed_vector.size pv - 1
      /\ placed_vector.elements pv' w'
         = take (placed_vector.size pv - 1) (placed_vector.elements pv w)
      /\ w' = w
  | Throw => False
  | Undefined => placed_vector.size pv = 0
  end.
Proof.
  intros (Hd & Hb & Hsc & Hlen).
  open_state pv w.
  destruct (decide (s = 0)); simpl; [done|].
  rewrite take_take, Nat.min_l by lia.
  destruct Hd. split_and!; eauto; lia.
Qed.

Lemma clear_spec en pv w :
  consistent N en pv w ->
  match placed_vector.clear pv w with
  | Ret (pv', w') =>
      consistent N en pv' w'
      /\ placed_vector.this pv' = placed_vector.this pv
      /\ placed_vector.size pv' = 0
      /\ placed_vector.elements pv' w' = []
      /\ w' = w
  | _ => False
  end.
Proof.
  intros (Hd & Hb & Hsc & Hlen).
  open_state pv w.
  destruct Hd. split_and!; eauto; lia.
Qed.

Lemma assign_at_spec en pv w i x :
  consistent N en pv w ->
  match placed_vector.assign_at i x pv w with
  | Ret (pv', w') =>
      i < placed_vector.size pv
      /\ consistent N en pv' w'
      /\ pv' = pv
      /\ placed_vector.elements pv' w' = <[i := x]> (placed_vector.elements pv w)
  | Throw => False
  | Undefined => placed_vector.size pv <= i
  end.
Proof.
  intros (Hd & Hb & Hsc & Hlen).
  open_state pv w.
  destruct (decide (i < s)); simpl; [|lia].
  rewrite lookup_insert_eq; simpl.
  rewrite length_insert, length_take.
  rewrite take_ge by (rewrite length_insert, length_take; lia).
  destruct Hd. split_and!; eauto; lia.
Qed.

Lemma set_enabled_spec en b pv w :
  consistent N en pv w ->
  exists w',
    placed_vector.set_enabled b pv w = Ret (tt, w')
    /\ consistent N b pv w'
    /\ store w' = store w
    /\ free_store w' = free_store w
    /\ (b = en -> w' = w).
Proof.
  intros (Hd & Hb & Hsc & Hlen).
  open_state pv w.
  destruct Hd as (-> & pm & Hpm & Hpb & Hsz & Hen & Hus).
  eexists; split; [reflexivity|]. simpl.
  rewrite lookup_alter_eq, Hpm. simpl.
  split_and!; eauto 10.
  intros ->. f_equal. apply map_eq. intros i.
  destruct (decide (i = self)) as [->|].
  - rewrite lookup_alter_eq, Hpm. destruct pm; simpl in *. by subst.
  - by rewrite lookup_alter_ne.
Qed.

Lemma is_in_place_consistent en pv w :
  consistent N en pv w ->
  placed_vector.is_in_place pv w
  = Ret (bool_decide (vector.data (placed_vector.base pv)
                      = bytes_of (placed_vector.this pv))).
Proof.
  intros ((Hal & pm & Hpm & _ & _ & _ & Hus) & _).
  unfold placed_vector.is_in_place, placed_vector.get_allocator,
    vector.get_allocator, allocator_in_place.is_in_place,
    allocator_in_place.copy; simpl.
  by rewrite Hal, Hpm, Hus.
Qed.

Lemma elements_store pv w w' :
  store w' = store w ->
  placed_vector.elements pv w' = placed_vector.elements pv w.
Proof.
  unfold placed_vector.elements, vector.elements, contents.
  by intros ->.
Qed.

(** ** put_in_place, step by step *)

(** The two guards. *)
Lemma put_in_place_settled en pv w :
  consistent N en pv w ->
  data_of pv = inline_of pv -> placed_vector.capacity pv = N ->
  placed_vector.put_in_place N pv w = Ret ((true, pv), w).
Proof.
  intros Hc Hd Hcap. unfold placed_vector.put_in_place.
  unfold bind, inspect. rewrite (is_in_place_consistent _ _ _ Hc). simpl.
  by rewrite !bool_decide_eq_true_2.
Qed.

Lemma put_in_place_too_big en pv w :
  consistent N en pv w -> N < placed_vector.size pv ->
  placed_vector.put_in_place N pv w = Ret ((false, pv), w).
Proof.
  intros Hc Hbig. unfold placed_vector.put_in_place.
  unfold bind, inspect. rewrite (is_in_place_consistent _ _ _ Hc). simpl.
  assert (Hsc : placed_vector.size pv <= placed_vector.capacity pv)
    by apply Hc.
  rewrite (bool_decide_eq_false_2 (placed_vector.capacity pv = N)) by lia.
  rewrite andb_false_r. by rewrite decide_True.
Qed.

Lemma put_in_place_coerce en pv w :
  consistent N en pv w ->
  placed_vector.size pv <= N ->
  ~ (data_of pv = inline_of pv /\ placed_vector.capacity pv = N) ->
  placed_vector.put_in_place N pv w = coerce N pv w.
Proof.
  intros Hc Hsz Hnot. unfold placed_vector.put_in_place.
  unfold bind at 1. unfold inspect at 1.
  rewrite (is_in_place_consistent _ _ _ Hc). simpl.
  rewrite decide_False by lia.
  destruct (decide (data_of pv = inline_of pv)).
  - rewrite (bool_decide_eq_false_2 (placed_vector.capacity pv = N))
      by tauto.
    by rewrite andb_false_r.
  - by rewrite bool_decide_eq_false_2.
Qed.

Lemma coerce_trace pv w :
  consistent N true pv w ->
  placed_vector.size pv <= N ->
  coerce N pv w <> Throw ->
  exists pv1 w1 w2 pv3 w3 w4 pv5 w5,
    let en := bool_decide (placed_vector.size pv = N) in
    placed_vector.reserve (N + 1) pv w = Ret (pv1, w1)
    /\ consistent N true pv1 w1
    /\ N < placed_vector.capacity pv1
    /\ (if decide (placed_vector.size pv1 <> N)
        then placed_vector.set_enabled false pv1 else ret tt) w1
       = Ret (tt, w2)
    /\ consistent N en pv1 w2
    /\ placed_vector.shrink_to_fit pv1 w2 = Ret (pv3, w3)
    /\ consistent N en pv3 w3
    /\ placed_vector.capacity pv3 = placed_vector.size pv
    /\ (data_of pv3 = inline_of pv <-> placed_vector.size pv = N /\ 0 < N)
    /\ placed_vector.set_enabled true pv3 w3 = Ret (tt, w4)
    /\ consistent N true pv3 w4
    /\ placed_vector.reserve N pv3 w4 = Ret (pv5, w5)
    /\ consistent N true pv5 w5
    /\ (0 < N -> data_of pv5 = inline_of pv /\ placed_vector.capacity pv5 = N)
    /\ placed_vector.this pv5 = placed_vector.this pv
    /\ placed_vector.size pv5 = placed_vector.size pv
    /\ placed_vector.elements pv5 w5 = placed_vector.elements pv w
    /\ coerce N pv w
       = Ret ((bool_decide (data_of pv5 = inline_of pv5), pv5), w5).
Proof.
  intros Hc Hsz Hthrow. unfold coerce in *.
  (* reserve(N + 1) *)
  pose proof (reserve_spec true pv w (N + 1) Hc) as H1.
  destruct (placed_vector.reserve (N + 1) pv w) as [[pv1 w1]| |] eqn:E1;
    [| by rewrite (bind_Throw _ _ _ E1) in Hthrow | done].
  rewrite (bind_Ret _ _ _ _ _ E1) in Hthrow |- *.
  destruct H1 as (Hc1 & Hthis1 & Hsz1 & Hel1 & Hsame1 & Hnew1).
  assert (Hcap1 : N < placed_vector.capacity pv1).
  { destruct (decide (N + 1 <= placed_vector.capacity pv)) as [Hle|Hgt].
    - destruct (Hsame1 Hle) as [-> _]. lia.
    - destruct (Hnew1 ltac:(lia)) as [-> _]. lia. }
  (* the conditional disable *)
  set (en := bool_decide (placed_vector.size pv = N)).
  assert (exists w2,
    (if decide (placed_vector.size pv1 <> N)
     then placed_vector.set_enabled false pv1 else ret tt) w1 = Ret (tt, w2)
    /\ consistent N en pv1 w2 /\ store w2 = store w1) as (w2 & E2 & Hc2 & Hst2).
  { subst en. rewrite Hsz1. destruct (decide (placed_vector.size pv <> N)).
    - destruct (set_enabled_spec true false pv1 w1 Hc1)
        as (w2 & ? & ? & ? & _).
      exists w2. by rewrite bool_decide_eq_false_2.
    - exists w1. rewrite bool_decide_eq_true_2 by lia. done. }
  rewrite (bind_Ret _ _ _ _ _ E2) in Hthrow |- *.
  (* shrink_to_fit *)
  pose proof (shrink_to_fit_spec en pv1 w2 Hc2) as H3.
  destruct (placed_vector.shrink_to_fit pv1 w2) as [[pv3 w3]| |] eqn:E3;
    [| by rewrite (bind_Throw _ _ _ E3) in Hthrow | done].
  rewrite (bind_Ret _ _ _ _ _ E3) in Hthrow |- *.
  destruct H3 as (Hc3 & Hthis3 & Hsz3 & Hel3 & _ & Hnew3).
  destruct (Hnew3 ltac:(lia)) as (Hcap3 & Hin3).
  assert (Hheap1 : data_of pv1 <> inline_of pv1).
  { intros Heq. destruct Hc1 as (_ & Hown & _).
    unfold owns_block in Hown. rewrite Heq in Hown. lia. }
  (* re-enable *)
  destruct (set_enabled_spec en true pv3 w3 Hc3)
    as (w4 & E4 & Hc4 & Hst4 & _).
  rewrite (bind_Ret _ _ _ _ _ E4) in Hthrow |- *.
  (* reserve(N) *)
  pose proof (reserve_spec true pv3 w4 N Hc4) as H5.
  destruct (placed_vector.reserve N pv3 w4) as [[pv5 w5]| |] eqn:E5;
    [| by rewrite (bind_Throw _ _ _ E5) in Hthrow | done].
  rewrite (bind_Ret _ _ _ _ _ E5).
  destruct H5 as (Hc5 & Hthis5 & Hsz5 & Hel5 & Hsame5 & Hnew5).
  rewrite Hthis1 in Hin3, Hheap1. rewrite Hsz1 in Hin3.
  rewrite Hthis3, Hthis1 in Hthis5. rewrite Hthis3, Hthis1 in Hnew5.
  assert (Hin3' : data_of pv3 = inline_of pv
                  <-> placed_vector.size pv = N /\ 0 < N).
  { rewrite Hin3. subst en. rewrite bool_decide_eq_true.
    intuition lia. }
  exists pv1, w1, w2, pv3, w3, w4, pv5, w5. simpl.
  split_and!; try done.
  - congruence.
  - intros HN.
    destruct (decide (placed_vector.size pv = N)) as [HeqN|HneN].
    + destruct (Hsame5 ltac:(lia)) as [-> _].
      split; [by apply Hin3' | lia].
    + destruct (Hnew5 ltac:(lia)) as (-> & Hin5 & _).
      split; [|done]. apply Hin5.
      split_and!; [done| |done].
      intros Hx. apply Hin3' in Hx. lia.
  - congruence.
  - rewrite Hel5, (elements_store pv3 w3 w4 Hst4), Hel3,
      (elements_store pv1 w1 w2 Hst2), Hel1. done.
  - unfold bind, inspect, ret.
    rewrite (is_in_place_consistent _ _ _ Hc5). simpl.
    by destruct (bool_decide (data_of pv5 = inline_of pv5)).
Qed.

(** ** The constructors *)

Lemma construct_spec self w0 :
  exists pv w,
    placed_vector.construct N self w0 = Ret (pv, w)
    /\ consistent N true pv w
    /\ placed_vector.this pv = self
    /\ placed_vector.size pv = 0
    /\ placed_vector.capacity pv = N
    /\ (0 < N -> data_of pv = bytes_of self)
    /\ free_store w = free_store w0.
Proof.
  unfold placed_vector.construct, consistent, bound_descriptor, owns_block,
    managed_place.construct, place_manager.construct.
  unfold_ops. destruct w0 as [pl st [lv nx av]]; simpl.
  destruct (decide (0 < N)) as [HN|HN]; simpl.
  - rewrite lookup_insert_eq; simpl.
    rewrite bool_decide_eq_true_2 by done; simpl.
    do 2 eexists; split; [reflexivity|]; simpl.
    rewrite lookup_insert_eq.
    split_and!; eauto; try lia.
    eexists; split_and!; eauto; simpl.
    by rewrite bool_decide_eq_true_2.
  - do 2 eexists; split; [reflexivity|]; simpl.
    rewrite lookup_insert_eq.
    split_and!; eauto; try lia.
    eexists; split_and!; eauto.
Qed.

(** Whatever the base did while it copied, [m_place] is constructed
    afterwards and starts out unused. *)
Lemma copy_construct_spec self other w pv w' :
  placed_vector.copy_construct N self other w = Ret (pv, w') ->
  placed_vector.this pv = self
  /\ allocator_in_place.m_place (placed_vector.get_allocator pv) = Some self
  /\ places w' !! self = Some (managed_place.construct N self)
  /\ placed_vector.is_in_place pv w' = Ret false
  /\ placed_vector.size pv = placed_vector.size other
  /\ placed_vector.capacity pv = placed_vector.size other.
Proof.
  unfold placed_vector.copy_construct, vector.copy_construct.
  unfold bind at 1.
  destruct (decide (vector.size (placed_vector.base other) = 0)) as [Hz|Hnz].
  - unfold_ops. simpl. intros [= <- <-]. simpl.
    rewrite lookup_insert_eq. simpl. split_and!; eauto.
  - unfold bind at 1.
    destruct (allocator_in_place.allocate _ _ w) as [[p w1]| |]; [|done..].
    unfold_ops. simpl. intros [= <- <-]. simpl.
    rewrite lookup_insert_eq. simpl. split_and!; eauto.
Qed.

(** On storage that holds no descriptor yet, only an empty source can be
    copied: the base would read [m_place] before it is constructed. *)
Lemma copy_construct_fresh self other w pv w' :
  places w !! self = None ->
  placed_vector.copy_construct N self other w = Ret (pv, w') ->
  placed_vector.size other = 0 /\ consistent N true pv w'.
Proof.
  intros Hfresh.
  unfold placed_vector.copy_construct, vector.copy_construct.
  unfold bind at 1. unfold placed_vector.size.
  destruct (decide (vector.size (placed_vector.base other) = 0)) as [Hz|Hnz].
  - unfold consistent, bound_descriptor, owns_block,
      managed_place.construct, place_manager.construct.
    unfold_ops. simpl. intros [= <- <-]. simpl.
    rewrite lookup_insert_eq.
    split_and!; eauto; try lia.
    eexists; split_and!; eauto.
  - unfold bind at 1. unfold allocator_in_place.allocate at 1. simpl.
    by rewrite Hfresh.
Qed.

(** ** The invariant holds over the whole life of the object *)

Lemma put_in_place_consistent pv w b pv' w' :
  consistent N true pv w ->
  placed_vector.put_in_place N pv w = Ret ((b, pv'), w') ->
  consistent N true pv' w'.
Proof.
  intros Hc Hput.
  destruct (decide (data_of pv = inline_of pv
                    /\ placed_vector.capacity pv = N)) as [[Hd Hcap]|Hnot].
  { rewrite (put_in_place_settled _ _ _ Hc Hd Hcap) in Hput. congruence. }
  destruct (decide (N < placed_vector.size pv)) as [Hbig|Hfit].
  { rewrite (put_in_place_too_big _ _ _ Hc Hbig) in Hput. congruence. }
  rewrite (put_in_place_coerce _ _ _ Hc ltac:(lia) Hnot) in Hput.
  destruct (coerce_trace pv w Hc ltac:(lia) ltac:(congruence))
    as (pv1 & w1 & w2 & pv3 & w3 & w4 & pv5 & w5 & Htrace).
  simpl in Htrace.
  destruct Htrace as (_&_&_&_&_&_&_&_&_&_&_&_& Hc5 &_&_&_&_& Heq).
  rewrite Heq in Hput. congruence.
Qed.

End Verification.

(** ** Appends, and the life of the object, for a given growth policy *)

Section Growing.
Context {T : Type}.
Variable N : nat.
Variable growth : nat -> nat.

Implicit Types (pv : placed_vector.t) (v : vector.t) (w : world T).

(** An append to a vector that has room touches neither the allocator
    nor the descriptor. *)
Lemma push_back_room en pv w x :
  consistent N en pv w ->
  placed_vector.size pv < placed_vector.capacity pv ->
  exists pv' w',
    placed_vector.push_back growth x pv w = Ret (pv', w')
    /\ consistent N en pv' w'
    /\ placed_vector.this pv' = placed_vector.this pv
    /\ data_of pv' = data_of pv
    /\ placed_vector.capacity pv' = placed_vector.capacity pv
    /\ placed_vector.size pv' = S (placed_vector.size pv)
    /\ placed_vector.elements pv' w' = placed_vector.elements pv w ++ [x]
    /\ places w' = places w
    /\ free_store w' = free_store w.
Proof.
  intros Hc Hroom.
  destruct (construct_at_end_spec N en pv w x Hc Hroom) as [Hc2 Hel2].
  unfold placed_vector.push_back, placed_vector.lift, vector.push_back.
  unfold placed_vector.size, placed_vector.capacity in *.
  rewrite decide_False by lia.
  unfold bind, ret; simpl. do 2 eexists. split; [reflexivity|].
  split_and!; eauto.
Qed.

Lemma appends_room pv w (xs : list T) :
  consistent N true pv w ->
  placed_vector.size pv + length xs <= placed_vector.capacity pv ->
  exists pv' w',
    applies N growth (map PushBack xs) pv w = Ret (pv', w')
    /\ consistent N true pv' w'
    /\ placed_vector.this pv' = placed_vector.this pv
    /\ data_of pv' = data_of pv
    /\ placed_vector.size pv' = placed_vector.size pv + length xs
    /\ placed_vector.elements pv' w' = placed_vector.elements pv w ++ xs
    /\ free_store w' = free_store w.
Proof.
  revert pv w. induction xs as [|x xs IH]; intros pv w Hc Hroom; simpl in *.
  - exists pv, w. unfold ret. rewrite app_nil_r.
    split_and!; eauto; lia.
  - destruct (push_back_room true pv w x Hc ltac:(lia))
      as (pv1 & w1 & E1 & Hc1 & Hthis1 & Hd1 & Hcap1 & Hsz1 & Hel1 & _ & Hfs1).
    destruct (IH pv1 w1 Hc1 ltac:(lia))
      as (pv2 & w2 & E2 & Hc2 & Hthis2 & Hd2 & Hsz2 & Hel2 & Hfs2).
    exists pv2, w2. rewrite (bind_Ret _ _ _ _ _ E1).
    split_and!; eauto; try congruence; try lia.
    by rewrite Hel2, Hel1, <- app_assoc.
Qed.

Hypothesis growth_gt : forall c, c < growth c.

Lemma push_back_spec en pv w x :
  consistent N en pv w ->
  match placed_vector.push_back growth x pv w with
  | Ret (pv', w') =>
      consistent N en pv' w'
      /\ placed_vector.this pv' = placed_vector.this pv
      /\ placed_vector.size pv' = S (placed_vector.size pv)
      /\ placed_vector.elements pv' w' = placed_vector.elements pv w ++ [x]
      /\ (placed_vector.size pv < placed_vector.capacity pv ->
          vector.data (placed_vector.base pv')
            = vector.data (placed_vector.base pv)
          /\ placed_vector.capacity pv' = placed_vector.capacity pv
          /\ places w' = places w
          /\ free_store w' = free_store w)
  | Throw => True
  | Undefined => False
  end.
Proof.
  intros Hc.
  assert (Hsc : placed_vector.size pv <= placed_vector.capacity pv)
    by apply Hc.
  unfold placed_vector.push_back, placed_vector.lift, vector.push_back.
  unfold placed_vector.size, placed_vector.capacity in *.
  destruct (decide (vector.size (placed_vector.base pv)
                    = vector.capacity (placed_vector.base pv))) as [Heq|Hne].
  - pose proof (growth_gt (vector.capacity (placed_vector.base pv))) as Hg.
    pose proof (reallocate_spec N en pv w
                  (growth (vector.capacity (placed_vector.base pv))) Hc
                  ltac:(lia) ltac:(unfold placed_vector.size; lia)) as Hr.
    unfold bind at 1 2.
    destruct (vector.reallocate _ (placed_vector.base pv) w)
      as [[v1 w1]| |]; simpl; [|done..].
    destruct Hr as (Hc1 & Hs1 & Hcap1 & Hel1 & _).
    destruct (construct_at_end_spec N en _ w1 x Hc1) as [Hc2 Hel2].
    { unfold placed_vector.size, placed_vector.capacity in *; simpl. lia. }
    simpl in *. unfold placed_vector.with_base in *; simpl in *.
    split_and!; eauto; try lia.
    rewrite Hel2. unfold placed_vector.elements at 1; simpl.
    by rewrite Hel1.
  - destruct (construct_at_end_spec N en pv w x Hc) as [Hc2 Hel2].
    { unfold placed_vector.size, placed_vector.capacity in *; lia. }
    unfold bind, ret; simpl.
    split_and!; eauto.
Qed.

Lemma pushed_cons (o : operation (T := T)) os :
  pushed (o :: os) = pushed [o] ++ pushed os.
Proof. by destruct o. Qed.

Lemma growing_spec pv w os :
  forallb grows os = true ->
  consistent N true pv w ->
  match applies N growth os pv w with
  | Ret (pv', w') =>
      consistent N true pv' w'
      /\ placed_vector.this pv' = placed_vector.this pv
      /\ placed_vector.size pv' = placed_vector.size pv + length (pushed os)
      /\ placed_vector.elements pv' w'
         = placed_vector.elements pv w ++ pushed os
  | Throw => True
  | Undefined => False
  end.
Proof.
  revert pv w. induction os as [|o os IH]; intros pv w Hgr Hc.
  - simpl. unfold ret. rewrite app_nil_r. split_and!; eauto; lia.
  - cbn [applies]. simpl in Hgr. apply andb_prop in Hgr as [Hgo Hgr].
    assert (match apply N growth o pv w with
            | Ret (pv1, w1) =>
                consistent N true pv1 w1
                /\ placed_vector.this pv1 = placed_vector.this pv
                /\ placed_vector.size pv1
                   = placed_vector.size pv + length (pushed [o])
                /\ placed_vector.elements pv1 w1
                   = placed_vector.elements pv w ++ pushed [o]
            | Throw => True
            | Undefined => False
            end) as H1.
    { destruct o as [x| | |i x|n| |]; try done; simpl.
      - pose proof (push_back_spec true pv w x Hc) as H.
        destruct (placed_vector.push_back growth x pv w)
          as [[pv1 w1]| |]; [|done..].
        destruct H as (? & ? & ? & ? & _). split_and!; eauto; lia.
      - pose proof (reserve_spec N true pv w n Hc) as H.
        destruct (placed_vector.reserve n pv w)
          as [[pv1 w1]| |]; [|done..].
        destruct H as (? & ? & ? & ? & _). rewrite app_nil_r.
        split_and!; eauto; lia. }
    destruct (apply N growth o pv w) as [[pv1 w1]| |] eqn:E1;
      [| by rewrite (bind_Throw _ _ _ E1) | done].
    rewrite (bind_Ret _ _ _ _ _ E1).
    destruct H1 as (Hc1 & Hthis1 & Hsz1 & Hel1).
    specialize (IH pv1 w1 Hgr Hc1).
    destruct (applies N growth os pv1 w1) as [[pv2 w2]| |]; [|done..].
    destruct IH as (Hc2 & Hthis2 & Hsz2 & Hel2).
    rewrite (pushed_cons o os), length_app.
    split_and!; eauto; try congruence; try lia.
    by rewrite Hel2, Hel1, <- app_assoc.
Qed.

Lemma apply_consistent o pv w pv' w' :
  consistent N true pv w ->
  apply N growth o pv w = Ret (pv', w') ->
  consistent N true pv' w'.
Proof.
  intros Hc Hap. destruct o as [x| | |i x|n| |]; simpl in Hap.
  - pose proof (push_back_spec true pv w x Hc) as H.
    rewrite Hap in H. apply H.
  - pose proof (pop_back_spec N true pv w Hc) as H.
    rewrite Hap in H. apply H.
  - pose proof (clear_spec N true pv w Hc) as H.
    rewrite Hap in H. apply H.
  - pose proof (assign_at_spec N true pv w i x Hc) as H.
    rewrite Hap in H. apply H.
  - pose proof (reserve_spec N true pv w n Hc) as H.
    rewrite Hap in H. apply H.
  - pose proof (shrink_to_fit_spec N true pv w Hc) as H.
    rewrite Hap in H. apply H.
  - unfold bind in Hap.
    destruct (placed_vector.put_in_place N pv w)
      as [[[b pv1] w1]| |] eqn:E; simpl in Hap; [|done..].
    injection Hap as <- <-.
    by eapply (put_in_place_consistent N).
Qed.

Lemma reachable_consistent pv w :
  reachable N growth pv w -> consistent N true pv w.
Proof.
  induction 1 as [self w0 pv w Hcons|self other w0 pv w Hfresh Hcopy
                 |o pv w pv' w' _ IH Hap].
  - destruct (construct_spec N self w0) as (pv0 & w1 & E & Hc & _).
    rewrite E in Hcons. by injection Hcons as <- <-.
  - by destruct (copy_construct_fresh N _ _ _ _ _ Hfresh Hcopy).
  - by eapply apply_consistent.
Qed.

Lemma applies_reachable os pv w pv' w' :
  reachable N growth pv w ->
  applies N growth os pv w = Ret (pv', w') ->
  reachable N growth pv' w'.
Proof.
  revert pv w. induction os as [|o os IH]; intros pv w Hr; simpl.
  - unfold ret. by intros [= <- <-].
  - unfold bind.
    destruct (apply N growth o pv w) as [[pv1 w1]| |] eqn:E;
      simpl; [|done..].
    apply IH. by eapply reachable_apply.
Qed.
End Growing.

(** * The claims *)

Section Claims.
Context {T : Type}.
Variable N : nat.
Variable growth : nat -> nat.

Implicit Types (pv : placed_vector.t) (w : world T).

Lemma elements_empty pv w :
  placed_vector.size pv = 0 -> placed_vector.elements pv w = [].
Proof.
  unfold placed_vector.elements, placed_vector.size, vector.elements.
  by intros ->.
Qed.

(** In a consistent state the vector is in place only with at most [N]
    elements. *)
Lemma in_place_bound en pv w :
  consistent N en pv w -> data_of pv = inline_of pv ->
  placed_vector.size pv <= N.
Proof.
  intros (_ & Hown & Hsc & _) Hd. unfold owns_block in Hown.
  rewrite Hd in Hown. lia.
Qed.

(** Running from the default constructor stays within [reachable]. *)
Lemma run_reachable self w0 os pv w :
  (let! pv := placed_vector.construct N self in
   applies N growth os pv) w0 = Ret (pv, w) ->
  reachable N growth pv w.
Proof.
  unfold bind at 1.
  destruct (placed_vector.construct N self w0) as [[pv0 w1]| |] eqn:E;
    simpl; [|done..].
  apply applies_reachable. by eapply reachable_construct.
Qed.

(** C1 (the code does otherwise): whatever the source and whatever the
    storage of the new object held, a copy-constructed placed_vector is
    not in place.  Its allocator does point to the descriptor of the new
    object, but that descriptor is constructed after the base has copied
    the elements, and starts out unused; and the copy has room for the
    elements of the source only, not for [N]. *)
Theorem copy_construct_not_in_place self other w pv w' :
  placed_vector.copy_construct N self other w = Ret (pv, w') ->
  allocator_in_place.m_place (placed_vector.get_allocator pv) = Some self
  /\ placed_vector.is_in_place pv w' = Ret false
  /\ placed_vector.capacity pv = placed_vector.size other.
Proof.
  intros Hcopy.
  destruct (copy_construct_spec N _ _ _ _ _ Hcopy) as (_ & ? & _ & ? & _ & ?).
  done.
Qed.

(** C2: for a placed_vector of at most [N] elements ([N] positive), when
    the fallback allocator does not fail, [put_in_place()] returns true,
    the vector is in place afterwards, and its elements are the same, in
    the same order. *)
Theorem put_in_place_succeeds pv w :
  (forall c, c < growth c) ->
  0 < N ->
  reachable N growth pv w ->
  placed_vector.size pv <= N ->
  placed_vector.put_in_place N pv w <> Throw ->
  exists pv' w',
    placed_vector.put_in_place N pv w = Ret ((true, pv'), w')
    /\ placed_vector.is_in_place pv' w' = Ret true
    /\ placed_vector.elements pv' w' = placed_vector.elements pv w.
Proof.
  intros Hg HN Hr Hsz Hthrow.
  pose proof (reachable_consistent N growth Hg pv w Hr) as Hc.
  destruct (decide (data_of pv = inline_of pv
                    /\ placed_vector.capacity pv = N)) as [[Hd Hcap]|Hnot].
  { exists pv, w. rewrite (put_in_place_settled N _ _ _ Hc Hd Hcap).
    rewrite (is_in_place_consistent N _ _ _ Hc).
    by rewrite bool_decide_eq_true_2. }
  rewrite (put_in_place_coerce N _ _ _ Hc Hsz Hnot) in Hthrow |- *.
  destruct (coerce_trace N pv w Hc Hsz Hthrow)
    as (pv1 & w1 & w2 & pv3 & w3 & w4 & pv5 & w5 & Htrace).
  simpl in Htrace.
  destruct Htrace
    as (_&_&_&_&_&_&_&_&_&_&_&_& Hc5 & Hin5 & Hthis5 &_& Hel5 & Heq).
  destruct (Hin5 HN) as [Hd5 _].
  exists pv5, w5. rewrite Heq, (is_in_place_consistent N _ _ _ Hc5).
  rewrite Hthis5. by rewrite bool_decide_eq_true_2.
Qed.

(** C3: for a placed_vector of more than [N] elements, [put_in_place()]
    returns false and changes nothing: the vector and the whole world,
    allocator included, are the ones it started from. *)
Theorem put_in_place_refuses pv w :
  (forall c, c < growth c) ->
  reachable N growth pv w ->
  N < placed_vector.size pv ->
  placed_vector.put_in_place N pv w = Ret ((false, pv), w).
Proof.
  intros Hg Hr Hbig.
  pose proof (reachable_consistent N growth Hg pv w Hr) as Hc.
  by eapply put_in_place_too_big.
Qed.


(** C5 (the code does otherwise): a copy constructed where the storage of
    the new object still holds the descriptor of an earlier object, as
    its destructor left it, is given its own inline buffer by the base,
    which reads that descriptor; the member [m_place] is constructed
    afterwards and starts out unused.  The copy then holds its elements
    in its inline buffer while its descriptor is not marked used and
    [is_in_place()] returns false. *)
Theorem copy_in_own_buffer_unused self other w stale :
  places w !! self = Some stale ->
  place_manager.is_enabled stale = true ->
  place_manager.is_used stale = false ->
  place_manager.p_bytes stale = bytes_of self ->
  0 < placed_vector.size other ->
  placed_vector.size other <= place_manager.size stale ->
  exists pv w' pm,
    placed_vector.copy_construct N self other w = Ret (pv, w')
    /\ placed_vector.elements pv w' = placed_vector.elements other w
    /\ data_of pv = inline_of pv
    /\ places w' !! placed_vector.this pv = Some pm
    /\ place_manager.p_bytes pm = inline_of pv
    /\ place_manager.is_used pm = false
    /\ placed_vector.is_in_place pv w' = Ret false.
Proof.
  intros Hst Hen Hus Hpb Hpos Hle.
  unfold placed_vector.copy_construct, vector.copy_construct,
    placed_vector.size in *.
  unfold bind at 1. rewrite decide_False by lia.
  unfold bind at 1. unfold allocator_in_place.allocate at 1. simpl.
  rewrite Hst, Hen, Hus, Hpb, bool_decide_eq_true_2 by done. simpl.
  unfold bind, modify, ret. simpl.
  do 3 eexists. split; [reflexivity|]. simpl.
  unfold placed_vector.elements, vector.elements, contents,
    placed_vector.is_in_place, allocator_in_place.is_in_place. simpl.
  rewrite !lookup_insert_eq. simpl.
  split_and!; try done.
  rewrite take_take. f_equal. lia.
Qed.

(** X17: at every point of the life of a placed_vector that was built by
    the default constructor, or copied from an empty source onto storage
    that holds no descriptor, its descriptor is marked used exactly when
    the block the vector holds is the inline buffer of that very object;
    so when [is_in_place()] returns true the vector's storage is at the
    address the descriptor records, which is the address of the inline
    buffer. *)
Theorem used_iff_inline pv w :
  (forall c, c < growth c) ->
  reachable N growth pv w ->
  exists pm,
    places w !! placed_vector.this pv = Some pm
    /\ place_manager.p_bytes pm = inline_of pv
    /\ (place_manager.is_used pm = true <-> data_of pv = inline_of pv)
    /\ (placed_vector.is_in_place pv w = Ret true ->
        data_of pv = place_manager.p_bytes pm).
Proof.
  intros Hg Hr.
  pose proof (reachable_consistent N growth Hg pv w Hr) as Hc.
  pose proof (is_in_place_consistent N _ _ _ Hc) as Hin.
  destruct Hc as ((_ & pm & Hpm & Hpb & _ & _ & Hus) & _).
  exists pm. rewrite Hpb, Hus, Hin.
  split_and!; [done|done|apply bool_decide_eq_true|].
  intros [= Heq]. by apply bool_decide_eq_true in Heq.
Qed.

(** C6: in a [put_in_place()] that passes both guards and in which the
    fallback allocator does not fail, the vector sits in a fallback block
    after [reserve(N + 1)]; the descriptor is disabled before
    [shrink_to_fit()] exactly when the size is not [N]; it is enabled
    again before [reserve(N)], after which ([N] positive) the vector sits
    in the inline buffer. *)
Theorem put_in_place_steps pv w :
  (forall c, c < growth c) ->
  reachable N growth pv w ->
  placed_vector.size pv <= N ->
  ~ (placed_vector.is_in_place pv w = Ret true
     /\ placed_vector.capacity pv = N) ->
  placed_vector.put_in_place N pv w <> Throw ->
  exists pv1 w1 w2 pv3 w3 w4 pv5 w5 b,
    placed_vector.reserve (N + 1) pv w = Ret (pv1, w1)
    /\ (exists k, data_of pv1 = heap_block k)
    /\ placed_vector.is_in_place pv1 w1 = Ret false
    /\ (if decide (placed_vector.size pv1 <> N)
        then placed_vector.set_enabled false pv1 else ret tt) w1
       = Ret (tt, w2)
    /\ place_manager.is_enabled <$> places w2 !! placed_vector.this pv
       = Some (bool_decide (placed_vector.size pv1 = N))
    /\ placed_vector.shrink_to_fit pv1 w2 = Ret (pv3, w3)
    /\ placed_vector.set_enabled true pv3 w3 = Ret (tt, w4)
    /\ place_manager.is_enabled <$> places w4 !! placed_vector.this pv
       = Some true
    /\ placed_vector.reserve N pv3 w4 = Ret (pv5, w5)
    /\ (0 < N ->
        data_of pv5 = inline_of pv
        /\ placed_vector.is_in_place pv5 w5 = Ret true)
    /\ placed_vector.put_in_place N pv w = Ret ((b, pv5), w5).
Proof.
  intros Hg Hr Hsz Hnot Hthrow.
  pose proof (reachable_consistent N growth Hg pv w Hr) as Hc.
  rewrite (is_in_place_consistent N _ _ _ Hc) in Hnot.
  assert (Hnot' : ~ (data_of pv = inline_of pv
                     /\ placed_vector.capacity pv = N)).
  { intros [Hd Hcap]. apply Hnot. by rewrite bool_decide_eq_true_2. }
  rewrite (put_in_place_coerce N _ _ _ Hc Hsz Hnot') in Hthrow |- *.
  destruct (coerce_trace N pv w Hc Hsz Hthrow)
    as (pv1 & w1 & w2 & pv3 & w3 & w4 & pv5 & w5 & Htrace).
  simpl in Htrace.
  destruct Htrace
    as (E1 & Hc1 & Hcap1 & E2 & Hc2 & E3 & Hc3 & _ & _ & E4 & Hc4
        & E5 & Hc5 & Hin5 & Hthis5 & _ & _ & Heq).
  assert (Hthis1 : placed_vector.this pv1 = placed_vector.this pv).
  { pose proof (reserve_spec N true pv w (N + 1) Hc) as H.
    rewrite E1 in H. apply H. }
  assert (Hsz1 : placed_vector.size pv1 = placed_vector.size pv).
  { pose proof (reserve_spec N true pv w (N + 1) Hc) as H.
    rewrite E1 in H. apply H. }
  assert (Hthis3 : placed_vector.this pv3 = placed_vector.this pv1).
  { pose proof (shrink_to_fit_spec N _ pv1 w2 Hc2) as H.
    rewrite E3 in H. apply H. }
  exists pv1, w1, w2, pv3, w3, w4, pv5, w5,
    (bool_decide (data_of pv5 = inline_of pv5)).
  split_and!; try done.
  - destruct Hc1 as (_ & Hown & _). unfold owns_block in Hown.
    destruct (data_of pv1) as [|o|k]; [lia|lia|by exists k].
  - rewrite (is_in_place_consistent N _ _ _ Hc1).
    rewrite bool_decide_eq_false_2; [done|].
    intros Hd. pose proof (in_place_bound _ _ _ Hc1 Hd) as Hb.
    destruct Hc1 as (_ & Hown & _). unfold owns_block in Hown.
    rewrite Hd in Hown. lia.
  - destruct Hc2 as ((_ & pm & Hpm & _ & _ & Hen & _) & _).
    rewrite <- Hthis1, Hpm. simpl. by rewrite Hen, Hsz1.
  - destruct Hc4 as ((_ & pm & Hpm & _ & _ & Hen & _) & _).
    rewrite <- Hthis1, <- Hthis3, Hpm. simpl. by rewrite Hen.
  - intros HN. destruct (Hin5 HN) as [Hd5 _]. split; [done|].
    rewrite (is_in_place_consistent N _ _ _ Hc5), Hthis5.
    by rewrite bool_decide_eq_true_2.
Qed.

(** C7: a default-constructed placed_vector that has only been grown, by
    appends and by [reserve], and to which more than [N] elements have
    been appended, is not in place: from the (N+1)-th append on,
    [is_in_place()] returns false. *)
Theorem growth_past_capacity self w0 (os : list (operation (T := T))) :
  (forall c, c < growth c) ->
  forallb grows os = true ->
  N < length (pushed os) ->
  (let! pv := placed_vector.construct N self in applies N growth os pv) w0
    <> Throw ->
  exists pv w,
    (let! pv := placed_vector.construct N self in applies N growth os pv) w0
      = Ret (pv, w)
    /\ placed_vector.elements pv w = pushed os
    /\ placed_vector.is_in_place pv w = Ret false.
Proof.
  intros Hg Hgr Hlen Hthrow.
  destruct (construct_spec N self w0)
    as (pv0 & w1 & E0 & Hc0 & _ & Hsz0 & _).
  rewrite (bind_Ret _ _ _ _ _ E0) in Hthrow |- *.
  pose proof (growing_spec N growth Hg pv0 w1 os Hgr Hc0) as H.
  destruct (applies N growth os pv0 w1) as [[pv w]| |]; [|done..].
  destruct H as (Hc & _ & Hsz & Hel).
  exists pv, w. split_and!; [done| |].
  - by rewrite Hel, (elements_empty _ _ Hsz0).
  - rewrite (is_in_place_consistent N _ _ _ Hc).
    rewrite bool_decide_eq_false_2; [done|].
    intros Hd. pose proof (in_place_bound _ _ _ Hc Hd). lia.
Qed.

(** C8: on a default-constructed placed_vector ([N] positive), appending
    at most [N] elements in all always returns, leaves the fallback
    allocator untouched, and leaves the vector in place; this holds after
    every one of the appends, each prefix of [xs] being such a sequence. *)
Theorem appends_within_capacity self w0 (xs : list T) :
  0 < N ->
  length xs <= N ->
  exists pv w,
    (let! pv := placed_vector.construct N self in
     applies N growth (map PushBack xs) pv) w0 = Ret (pv, w)
    /\ placed_vector.elements pv w = xs
    /\ placed_vector.is_in_place pv w = Ret true
    /\ free_store w = free_store w0.
Proof.
  intros HN Hlen.
  destruct (construct_spec N self w0)
    as (pv0 & w1 & E0 & Hc0 & Hthis0 & Hsz0 & Hcap0 & Hd0 & Hfs0).
  destruct (appends_room N growth pv0 w1 xs Hc0 ltac:(lia))
    as (pv & w & E & Hc & Hthis & Hd & Hsz & Hel & Hfs).
  exists pv, w. rewrite (bind_Ret _ _ _ _ _ E0).
  split_and!; [done| | |congruence].
  - by rewrite Hel, (elements_empty _ _ Hsz0).
  - rewrite (is_in_place_consistent N _ _ _ Hc).
    rewrite bool_decide_eq_true_2; [done|].
    rewrite Hd, Hthis, Hthis0. by apply Hd0.
Qed.

(** C9: for a positive [N], the default constructor returns an empty
    placed_vector that is in place, whose [size_in_place()] is [N] and
    whose capacity is at least [N]: its [reserve(N)] is granted by the
    inline buffer, and the fallback allocator is not asked. *)
Theorem construct_in_place self w0 :
  0 < N ->
  exists pv w,
    placed_vector.construct N self w0 = Ret (pv, w)
    /\ placed_vector.size pv = 0
    /\ placed_vector.elements pv w = []
    /\ placed_vector.is_in_place pv w = Ret true
    /\ placed_vector.size_in_place N pv = N
    /\ N <= placed_vector.capacity pv
    /\ data_of pv = bytes_of self
    /\ free_store w = free_store w0.
Proof.
  intros HN.
  destruct (construct_spec N self w0)
    as (pv & w & E & Hc & Hthis & Hsz & Hcap & Hd & Hfs).
  exists pv, w. split_and!; try done.
  - by apply elements_empty.
  - rewrite (is_in_place_consistent N _ _ _ Hc).
    rewrite bool_decide_eq_true_2; [done|]. rewrite Hthis. by apply Hd.
  - lia.
  - by apply Hd.
Qed.

(** C10: [deallocate] dereferences [m_place] without a test.  With a null
    [m_place], which is what the default argument and the converting
    constructor produce, [deallocate] is undefined, while [allocate] goes
    to the fallback allocator and [is_in_place] returns false.  With an
    [m_place] that points to a descriptor the dereference is defined, and
    that is the case of the allocator of every placed_vector, from either
    constructor on. *)
Theorem deallocate_needs_place (a : allocator_in_place.t) (p : pointer)
    (n : nat) w :
  (allocator_in_place.m_place a = None ->
     allocator_in_place.deallocate a p n w = Undefined
     /\ allocator_in_place.allocate a n w = std_allocator.allocate n w
     /\ allocator_in_place.is_in_place a w = Ret false)
  /\ allocator_in_place.m_place allocator_in_place.construct_default = None
  /\ allocator_in_place.m_place (allocator_in_place.convert a) = None
  /\ (forall o pm,
        allocator_in_place.m_place a = Some o ->
        places w !! o = Some pm ->
        allocator_in_place.deallocate a p n w
        = if decide (p = place_manager.p_bytes pm)
          then Ret (tt, set_places
                          <[o := place_manager.set_is_used false pm]> w)
          else std_allocator.deallocate p n w)
  /\ (forall self other pv w',
        placed_vector.construct N self w = Ret (pv, w')
        \/ placed_vector.copy_construct N self other w = Ret (pv, w') ->
        allocator_in_place.m_place (placed_vector.get_allocator pv)
          = Some self
        /\ is_Some (places w' !! self))
  /\ (forall pv w',
        (forall c, c < growth c) ->
        reachable N growth pv w' ->
        allocator_in_place.m_place (placed_vector.get_allocator pv)
          = Some (placed_vector.this pv)
        /\ is_Some (places w' !! placed_vector.this pv)).
Proof.
  split_and!.
  - intros Ha. unfold allocator_in_place.deallocate,
      allocator_in_place.allocate, allocator_in_place.is_in_place.
    by rewrite Ha.
  - done.
  - done.
  - intros o pm Ha Hpm. unfold allocator_in_place.deallocate.
    by rewrite Ha, Hpm.
  - intros self other pv w' [Hcons|Hcopy].
    + destruct (construct_spec N self w)
        as (pv0 & w1 & E & ((Hal & pm & Hpm & _) & _) & Hthis & _).
      rewrite E in Hcons. injection Hcons as <- <-.
      unfold placed_vector.get_allocator, vector.get_allocator,
        allocator_in_place.copy. simpl.
      rewrite Hal, Hthis in *. eauto.
    + destruct (copy_construct_spec N _ _ _ _ _ Hcopy)
        as (_ & ? & Hpm & _).
      split; [done|]. by rewrite Hpm.
  - intros pv w' Hg Hr.
    destruct (reachable_consistent N growth Hg pv w' Hr)
      as ((Hal & pm & Hpm & _) & _).
    unfold placed_vector.get_allocator, vector.get_allocator,
      allocator_in_place.copy. simpl.
    rewrite Hal, Hpm. eauto.
Qed.
End Claims.

(** * The claims on a placed_vector<int, 4> *)

Lemma growth_by_half_gt : forall c, c < growth_by_half c.
Proof. intros c. unfold growth_by_half. lia. Qed.

Lemma after_reachable os :
  (let! pv := placed_vector.construct 4 7 in
   applies 4 growth_by_half os pv) empty_world = Ret (after os) ->
  reachable 4 growth_by_half (fst (after os)) (snd (after os)).
Proof.
  intros H. apply (run_reachable 4 growth_by_half 7 empty_world os).
  rewrite H. by destruct (after os).
Qed.

Lemma copy_construct_not_in_place_witness :
  placed_vector.is_in_place (fst fresh) (snd fresh) = Ret true
  /\ placed_vector.copy_construct 4 8 (fst fresh) (snd fresh) = Ret copied
  /\ placed_vector.is_in_place (fst copied) (snd copied) = Ret false
  /\ placed_vector.capacity (fst copied) = 0.
Proof.
  split; [vm_compute; reflexivity|].
  split; [vm_compute; reflexivity|].
  destruct (copy_construct_not_in_place 4 8 (fst fresh) (snd fresh)
              (fst copied) (snd copied)) as (_ & Hin & Hcap).
  - vm_compute; reflexivity.
  - split; [exact Hin | exact Hcap].
Defined.

(** A non-empty source makes the base read [m_place] of the new object
    before it is constructed. *)
Example copy_reads_unconstructed_place :
  placed_vector.copy_construct 4 8 (fst (grown 3)) (snd (grown 3))
  = Undefined.
Proof. vm_compute. reflexivity. Qed.

(** Where that read finds the descriptor of an earlier object, the copy is
    given its own inline buffer, and yet does not report to be in place. *)
Example copy_onto_recycled_storage :
  exists pv w,
    placed_vector.copy_construct 4 8 (fst (grown 3)) recycled = Ret (pv, w)
    /\ data_of pv = bytes_of 8
    /\ placed_vector.elements pv w = [1; 2; 3]
    /\ placed_vector.is_in_place pv w = Ret false.
Proof.
  do 2 eexists. split; [vm_compute; reflexivity|].
  split_and!; vm_compute; reflexivity.
Qed.

Lemma put_in_place_succeeds_witness :
  placed_vector.is_in_place (fst shrunk) (snd shrunk) = Ret false
  /\ placed_vector.elements (fst shrunk) (snd shrunk) = [1; 2; 3]
  /\ exists pv' w',
       placed_vector.put_in_place 4 (fst shrunk) (snd shrunk)
         = Ret ((true, pv'), w')
       /\ placed_vector.is_in_place pv' w' = Ret true
       /\ placed_vector.elements pv' w'
          = placed_vector.elements (fst shrunk) (snd shrunk).
Proof.
  split; [vm_compute; reflexivity|].
  split; [vm_compute; reflexivity|].
  apply (put_in_place_succeeds 4 growth_by_half).
  - intros c. unfold growth_by_half. lia.
  - lia.
  - apply after_reachable. vm_compute. reflexivity.
  - vm_compute. lia.
  - vm_compute. discriminate.
Defined.

Lemma put_in_place_refuses_witness :
  placed_vector.elements (fst (grown 6)) (snd (grown 6)) = [1; 2; 3; 4; 5; 6]
  /\ placed_vector.put_in_place 4 (fst (grown 6)) (snd (grown 6))
     = Ret ((false, fst (grown 6)), snd (grown 6)).
Proof.
  split; [vm_compute; reflexivity|].
  apply (put_in_place_refuses 4 growth_by_half).
  - intros c. unfold growth_by_half. lia.
  - apply after_reachable. vm_compute. reflexivity.
  - vm_compute. lia.
Defined.


Lemma copy_in_own_buffer_unused_witness :
  exists pv w' pm,
    placed_vector.copy_construct 4 8 (fst (grown 3)) recycled = Ret (pv, w')
    /\ placed_vector.elements pv w'
       = placed_vector.elements (fst (grown 3)) recycled
    /\ data_of pv = inline_of pv
    /\ places w' !! placed_vector.this pv = Some pm
    /\ place_manager.p_bytes pm = inline_of pv
    /\ place_manager.is_used pm = false
    /\ placed_vector.is_in_place pv w' = Ret false.
Proof.
  apply (copy_in_own_buffer_unused 4 8 (fst (grown 3)) recycled
           (managed_place.construct 4 8)).
  - vm_compute. reflexivity.
  - reflexivity.
  - reflexivity.
  - reflexivity.
  - vm_compute. lia.
  - vm_compute. lia.
Defined.

Lemma used_iff_inline_witness :
  exists pm,
    places (snd (grown 4)) !! 7 = Some pm
    /\ place_manager.p_bytes pm = bytes_of 7
    /\ (place_manager.is_used pm = true
        <-> data_of (fst (grown 4)) = bytes_of 7)
    /\ (placed_vector.is_in_place (fst (grown 4)) (snd (grown 4)) = Ret true ->
        data_of (fst (grown 4)) = place_manager.p_bytes pm).
Proof.
  apply (used_iff_inline 4 growth_by_half (fst (grown 4)) (snd (grown 4))).
  - intros c. unfold growth_by_half. lia.
  - apply after_reachable. vm_compute. reflexivity.
Defined.

Lemma put_in_place_steps_witness :
  exists pv1 w1 w2 pv3 w3 w4 pv5 w5 b,
    placed_vector.reserve (4 + 1) (fst shrunk) (snd shrunk) = Ret (pv1, w1)
    /\ (exists k, data_of pv1 = heap_block k)
    /\ placed_vector.is_in_place pv1 w1 = Ret false
    /\ (if decide (placed_vector.size pv1 <> 4)
        then placed_vector.set_enabled false pv1 else ret tt) w1
       = Ret (tt, w2)
    /\ place_manager.is_enabled <$> places w2 !! 7
       = Some (bool_decide (placed_vector.size pv1 = 4))
    /\ placed_vector.shrink_to_fit pv1 w2 = Ret (pv3, w3)
    /\ placed_vector.set_enabled true pv3 w3 = Ret (tt, w4)
    /\ place_manager.is_enabled <$> places w4 !! 7 = Some true
    /\ placed_vector.reserve 4 pv3 w4 = Ret (pv5, w5)
    /\ (0 < 4 ->
        data_of pv5 = bytes_of 7
        /\ placed_vector.is_in_place pv5 w5 = Ret true)
    /\ placed_vector.put_in_place 4 (fst shrunk) (snd shrunk)
       = Ret ((b, pv5), w5).
Proof.
  apply (put_in_place_steps 4 growth_by_half (fst shrunk) (snd shrunk)).
  - intros c. unfold growth_by_half. lia.
  - apply after_reachable. vm_compute. reflexivity.
  - vm_compute. lia.
  - vm_compute. intros [H _]. discriminate H.
  - vm_compute. discriminate.
Defined.

Lemma growth_past_capacity_witness :
  exists pv w,
    (let! pv := placed_vector.construct 4 7 in
     applies 4 growth_by_half
       (map PushBack [1; 2; 3; 4; 5] ++ [Reserve 9; PushBack 6]) pv)
      empty_world = Ret (pv, w)
    /\ placed_vector.elements pv w = [1; 2; 3; 4; 5; 6]
    /\ placed_vector.is_in_place pv w = Ret false.
Proof.
  apply (growth_past_capacity 4 growth_by_half 7 empty_world
           (map PushBack [1; 2; 3; 4; 5] ++ [Reserve 9; PushBack 6])).
  - intros c. unfold growth_by_half. lia.
  - reflexivity.
  - simpl. lia.
  - vm_compute. discriminate.
Defined.

Lemma appends_within_capacity_witness :
  exists pv w,
    (let! pv := placed_vector.construct 4 7 in
     applies 4 growth_by_half (map PushBack [1; 2; 3; 4]) pv) empty_world
      = Ret (pv, w)
    /\ placed_vector.elements pv w = [1; 2; 3; 4]
    /\ placed_vector.is_in_place pv w = Ret true
    /\ free_store w = free_store empty_world.
Proof.
  apply (appends_within_capacity 4 growth_by_half 7 empty_world [1; 2; 3; 4]).
  - lia.
  - simpl. lia.
Defined.

Lemma construct_in_place_witness :
  exists pv w,
    placed_vector.construct 4 7 empty_world = Ret (pv, w)
    /\ placed_vector.size pv = 0
    /\ placed_vector.elements pv w = []
    /\ placed_vector.is_in_place pv w = Ret true
    /\ placed_vector.size_in_place 4 pv = 4
    /\ 4 <= placed_vector.capacity pv
    /\ data_of pv = bytes_of 7
    /\ free_store w = free_store empty_world.
Proof.
  apply (construct_in_place 4 7 empty_world). lia.
Defined.

Lemma deallocate_needs_place_witness :
  allocator_in_place.deallocate allocator_in_place.construct_default
    (heap_block 0) 6 (snd (grown 5)) = Undefined
  /\ allocator_in_place.allocate allocator_in_place.construct_default
       6 (snd (grown 5))
     = std_allocator.allocate 6 (snd (grown 5))
  /\ allocator_in_place.is_in_place allocator_in_place.construct_default
       (snd (grown 5)) = Ret false.
Proof.
  destruct (deallocate_needs_place 4 growth_by_half
              allocator_in_place.construct_default (heap_block 0) 6
              (snd (grown 5))) as (Hnull & _).
  apply Hnull. reflexivity.
Defined.

(** * More of the code: effects of the operations *)

Section Effects.
Context {T : Type}.
Variable N : nat.

Implicit Types (pv : placed_vector.t) (v : vector.t) (w : world T).

Lemma untouched_refl pv w : untouched pv w pv w.
Proof. unfold untouched. naive_solver. Qed.

Lemma untouched_trans pv w pv1 w1 pv2 w2 :
untouched pv w pv1 w1 -> untouched pv1 w1 pv2 w2 -> untouched pv w pv2 w2.
Proof.
intros (Ht1 & Hp1 & Hs1 & Hl1) (Ht2 & Hp2 & Hs2 & Hl2).
unfold untouched. split_and!.
- congruence.
- intros o Ho. rewrite Hp2 by congruence. by apply Hp1.
- intros p Hf. destruct (Hs1 p Hf) as [Hf1 E1].
  destruct (Hs2 p Hf1) as [Hf2 E2]. split; [done | congruence].
- intros k Hf. destruct (Hs1 _ Hf) as [Hf1 _].
  rewrite (Hl2 k Hf1). by apply Hl1.
Qed.

Ltac unfold_ops :=
unfold placed_vector.reserve, placed_vector.shrink_to_fit,
  placed_vector.push_back, placed_vector.pop_back, placed_vector.clear,
  placed_vector.assign_at, placed_vector.lift, placed_vector.with_base,
  placed_vector.is_in_place, placed_vector.get_allocator,
  placed_vector.set_enabled, placed_vector.size, placed_vector.capacity,
  placed_vector.elements,
  vector.reserve, vector.shrink_to_fit, vector.tidy, vector.reallocate,
  vector.release, vector.push_back, vector.pop_back, vector.clear,
  vector.assign_at, vector.get_allocator, vector.elements, vector.set_size,
  vector.construct,
  allocator_in_place.allocate, allocator_in_place.deallocate,
  allocator_in_place.is_in_place, allocator_in_place.copy,
  allocator_in_place.construct,
  std_allocator.allocate, std_allocator.deallocate,
  place_manager.set_is_used, place_manager.set_is_enabled,
  bind, ret, modify, inspect, undefined, obind,
  set_places, set_store, set_free_store, contents in *.

Ltac open_state pv w :=
destruct pv as [self [d s c [mp]]];
destruct w as [pl st [lv nx av]];
unfold consistent, bound_descriptor, owns_block, untouched, foreign, held in *;
unfold_ops; simpl in *.

Ltac branches :=
repeat (match goal with
        | |- context [decide ?P] => destruct (decide P)
        | |- context [bool_decide ?P] => destruct (bool_decide_reflect P)
        end; simpl; try lia; try done).

(** Closing the goals of the shape of [untouched], once the state is open. *)
Ltac solve_places :=
solve [ let o := fresh "o" in
        intros o Ho; rewrite ?lookup_insert_ne by done; done ].

Ltac solve_store nx :=
solve [ let p := fresh "p" in
        let kk := fresh "kk" in
        intros p (Hp0 & Hp1 & Hp2 & Hp3);
        assert (p <> heap_block nx)
          by (intros ->; specialize (Hp3 nx eq_refl); lia);
        split;
        [ split_and!; try done; intros kk Ek; specialize (Hp3 kk Ek); lia
        | rewrite ?lookup_delete_ne by done;
          rewrite ?lookup_insert_ne by done; done ] ].

Ltac solve_live nx :=
solve [ let kk := fresh "kk" in
        intros kk (Hp0 & Hp1 & Hp2 & Hp3);
        assert (kk <> nx) by (specialize (Hp3 kk eq_refl); lia);
        rewrite ?lookup_delete_ne by congruence;
        rewrite ?lookup_insert_ne by done; done ].

Ltac solve_untouched nx :=
split_and!; try lia; try done;
first [solve_places | solve_store nx | solve_live nx].

Lemma reallocate_effect en pv w n :
consistent N en pv w -> 0 < n ->
match vector.reallocate n (placed_vector.base pv) w with
| Ret (v', w') =>
    untouched pv w (placed_vector.with_base pv v') w'
    /\ avail (free_store w') + held (placed_vector.with_base pv v')
       = avail (free_store w) + held pv
    /\ next (free_store w) <= next (free_store w')
| _ => True
end.
Proof.
intros (Hd & Hb & Hsc & Hlen) Hn.
open_state pv w.
destruct Hd as (-> & pm & Hpm & Hpb & Hsz & Hen & Hus).
destruct pm as [us en' pb sz]; simpl in *; subst.
rewrite Hpm; simpl.
destruct d as [|o|k]; [| destruct Hb as [-> Hb] |].
- rewrite bool_decide_eq_false_2 in * by done.
  destruct en; simpl; branches; solve_untouched nx.
- rewrite bool_decide_eq_true_2 in * by done.
  destruct en; simpl; branches; simplify_map_eq/=; solve_untouched nx.
- rewrite bool_decide_eq_false_2 in * by done.
  destruct Hb as [Hk Hlt].
  assert (k <> nx) by lia. assert (nx <> k) by lia.
  assert (heap_block k <> heap_block nx) by congruence.
  destruct en; simpl; branches; simplify_map_eq/=; solve_untouched nx.
Qed.

Lemma tidy_effect en pv w :
consistent N en pv w ->
match vector.tidy (placed_vector.base pv) w with
| Ret (v', w') =>
    untouched pv w (placed_vector.with_base pv v') w'
    /\ avail (free_store w') + held (placed_vector.with_base pv v')
       = avail (free_store w) + held pv
| _ => True
end.
Proof.
intros (Hd & Hb & Hsc & Hlen).
open_state pv w.
destruct Hd as (-> & pm & Hpm & Hpb & Hsz & Hen & Hus).
destruct pm as [us en' pb sz]; simpl in *; subst.
destruct d as [|o|k]; [| destruct Hb as [-> Hb] |].
- simpl. solve_untouched nx.
- simpl. rewrite Hpm. simpl. branches. solve_untouched nx.
- destruct Hb as [Hk Hlt].
  simpl. rewrite Hpm. simpl. branches. solve_untouched nx.
Qed.

(** A change confined to the block the vector holds. *)
Lemma untouched_own pv w pv' w' :
placed_vector.this pv' = placed_vector.this pv ->
data_of pv' = data_of pv ->
placed_vector.capacity pv' = placed_vector.capacity pv ->
places w' = places w ->
free_store w' = free_store w ->
(forall p, p <> data_of pv -> store w' !! p = store w !! p) ->
untouched pv w pv' w'
/\ avail (free_store w') + held pv' = avail (free_store w) + held pv.
Proof.
intros Ht Hd Hc Hp Hf Hs. unfold untouched, foreign, held.
rewrite Ht, Hd, Hc, Hp, Hf. split_and!; try done.
intros p (? & ? & ? & ?). split_and!; try done. by apply Hs.
Qed.

Lemma reserve_effect en pv w n :
consistent N en pv w ->
match placed_vector.reserve n pv w with
| Ret (pv', w') =>
    untouched pv w pv' w'
    /\ avail (free_store w') + held pv'
       = avail (free_store w) + held pv
| _ => True
end.
Proof.
intros Hc.
unfold placed_vector.reserve, placed_vector.lift, vector.reserve.
destruct (decide (vector.capacity (placed_vector.base pv) < n)) as [Hlt|Hge].
- pose proof (reallocate_effect en pv w n Hc ltac:(lia)) as Hr.
  unfold bind at 1.
  destruct (vector.reallocate n (placed_vector.base pv) w)
    as [[v' w']| |]; simpl; [|done..].
  by destruct Hr as (? & ? & _).
- unfold bind, ret; simpl. destruct pv as [self v]; simpl.
  split; [apply untouched_refl | done].
Qed.

Lemma shrink_to_fit_effect en pv w :
consistent N en pv w ->
match placed_vector.shrink_to_fit pv w with
| Ret (pv', w') =>
    untouched pv w pv' w'
    /\ avail (free_store w') + held pv'
       = avail (free_store w) + held pv
| _ => True
end.
Proof.
intros Hc.
unfold placed_vector.shrink_to_fit, placed_vector.lift, vector.shrink_to_fit.
destruct (decide (vector.size (placed_vector.base pv)
                  < vector.capacity (placed_vector.base pv))) as [Hlt|Hge].
- destruct (decide (vector.size (placed_vector.base pv) = 0)) as [Hz|Hnz].
  + pose proof (tidy_effect en pv w Hc) as Hr.
    unfold bind at 1.
    by destruct (vector.tidy (placed_vector.base pv) w) as [[v' w']| |].
  + pose proof (reallocate_effect en pv w
                  (vector.size (placed_vector.base pv)) Hc ltac:(lia)) as Hr.
    unfold bind at 1.
    destruct (vector.reallocate _ (placed_vector.base pv) w)
      as [[v' w']| |]; simpl; [|done..].
    by destruct Hr as (? & ? & _).
- unfold bind, ret; simpl. destruct pv as [self v]; simpl.
  split; [apply untouched_refl | done].
Qed.

Lemma pop_back_effect pv w :
match placed_vector.pop_back pv w with
| Ret (pv', w') =>
    untouched pv w pv' w'
    /\ avail (free_store w') + held pv'
       = avail (free_store w) + held pv
| _ => True
end.
Proof.
unfold placed_vector.pop_back, placed_vector.lift, vector.pop_back.
destruct (decide (vector.size (placed_vector.base pv) = 0)); [done|].
unfold bind, ret; simpl. by apply untouched_own.
Qed.

Lemma clear_effect pv w :
match placed_vector.clear pv w with
| Ret (pv', w') =>
    untouched pv w pv' w'
    /\ avail (free_store w') + held pv'
       = avail (free_store w) + held pv
| _ => True
end.
Proof.
unfold placed_vector.clear, placed_vector.lift, vector.clear.
unfold bind, ret; simpl. by apply untouched_own.
Qed.

Lemma assign_at_effect pv w i (x : T) :
match placed_vector.assign_at i x pv w with
| Ret (pv', w') =>
    untouched pv w pv' w'
    /\ avail (free_store w') + held pv'
       = avail (free_store w) + held pv
| _ => True
end.
Proof.
unfold placed_vector.assign_at, placed_vector.lift, vector.assign_at.
destruct (decide (i < vector.size (placed_vector.base pv))); [|done].
cbv beta iota delta [bind ret obind fst snd].
apply untouched_own; try done.
intros p Hp. simpl. by rewrite lookup_insert_ne.
Qed.

Lemma set_enabled_effect b pv w w' :
placed_vector.set_enabled b pv w = Ret (tt, w') ->
untouched pv w pv w'
/\ avail (free_store w') + held pv = avail (free_store w) + held pv.
Proof.
unfold placed_vector.set_enabled, modify. intros [= <-].
split; [|done]. unfold untouched, foreign. simpl. split_and!; try done.
intros o Ho. by rewrite lookup_alter_ne.
Qed.

Lemma put_in_place_effect pv w b pv' w' :
consistent N true pv w ->
placed_vector.put_in_place N pv w = Ret ((b, pv'), w') ->
untouched pv w pv' w'
/\ avail (free_store w') + held pv' = avail (free_store w) + held pv.
Proof.
intros Hc Hput.
destruct (decide (data_of pv = inline_of pv
                  /\ placed_vector.capacity pv = N)) as [[Hd Hcap]|Hnot].
{ rewrite (put_in_place_settled N _ _ _ Hc Hd Hcap) in Hput.
  injection Hput as <- <- <-. split; [apply untouched_refl | done]. }
destruct (decide (N < placed_vector.size pv)) as [Hbig|Hfit].
{ rewrite (put_in_place_too_big N _ _ _ Hc Hbig) in Hput.
  injection Hput as <- <- <-. split; [apply untouched_refl | done]. }
rewrite (put_in_place_coerce N _ _ _ Hc ltac:(lia) Hnot) in Hput.
destruct (coerce_trace N pv w Hc ltac:(lia) ltac:(congruence))
  as (pv1 & w1 & w2 & pv3 & w3 & w4 & pv5 & w5 & Htrace).
simpl in Htrace.
destruct Htrace
  as (E1 & Hc1 & _ & E2 & Hc2 & E3 & Hc3 & _ & _ & E4 & Hc4
      & E5 & _ & _ & _ & _ & _ & Heq).
rewrite Heq in Hput. injection Hput as <- <- <-.
pose proof (reserve_effect true pv w (N + 1) Hc) as H1.
rewrite E1 in H1. destruct H1 as [U1 A1].
assert (untouched pv1 w1 pv1 w2
        /\ avail (free_store w2) + held pv1
           = avail (free_store w1) + held pv1) as [U2 A2].
{ destruct (decide (placed_vector.size pv1 <> N)).
  - by apply (set_enabled_effect false).
  - injection E2 as <-. split; [apply untouched_refl | done]. }
pose proof (shrink_to_fit_effect _ pv1 w2 Hc2) as H3.
rewrite E3 in H3. destruct H3 as [U3 A3].
destruct (set_enabled_effect true pv3 w3 w4 E4) as [U4 A4].
pose proof (reserve_effect true pv3 w4 N Hc4) as H5.
rewrite E5 in H5. destruct H5 as [U5 A5].
split; [|lia].
eapply untouched_trans; [exact U1|].
eapply untouched_trans; [exact U2|].
eapply untouched_trans; [exact U3|].
eapply untouched_trans; [exact U4|exact U5].
Qed.

(** A world that differs from [w] only outside what [pv] relies on. *)
Lemma consistent_frame en pv w w' :
consistent N en pv w ->
places w' !! placed_vector.this pv = places w !! placed_vector.this pv ->
(data_of pv <> nullptr -> store w' !! data_of pv = store w !! data_of pv) ->
(forall k, data_of pv = heap_block k ->
   live (free_store w') !! k = live (free_store w) !! k
   /\ k < next (free_store w')) ->
consistent N en pv w'
/\ placed_vector.elements pv w' = placed_vector.elements pv w
/\ placed_vector.is_in_place pv w' = placed_vector.is_in_place pv w.
Proof.
intros ((Hal & pm & Hpm & Hrest) & Hown & Hsc & Hlen) Hp Hs Hl.
assert (Hel : placed_vector.size pv
              <= length (contents w' (data_of pv))
              /\ placed_vector.elements pv w' = placed_vector.elements pv w).
{ unfold placed_vector.elements, vector.elements, contents in *.
  destruct (decide (data_of pv = nullptr)) as [Hnull|Hnn].
  - unfold owns_block in Hown. rewrite Hnull in Hown.
    unfold placed_vector.size, placed_vector.capacity in *.
    assert (vector.size (placed_vector.base pv) = 0) as -> by lia.
    split; [lia | done].
  - by rewrite (Hs Hnn). }
destruct Hel as [Hlen' Hel]. unfold consistent, bound_descriptor.
split_and!; try done.
- exists pm. by rewrite Hp.
- unfold owns_block in *. destruct (data_of pv) as [|o|k]; try done.
  destruct (Hl k eq_refl) as [-> ?]. split; [apply Hown | done].
- unfold placed_vector.is_in_place, allocator_in_place.is_in_place,
    placed_vector.get_allocator, vector.get_allocator,
    allocator_in_place.copy. simpl. by rewrite Hal, Hp.
Qed.

(** What [put_in_place] returns, whenever it returns. *)
Lemma put_in_place_result pv w b pv' w' :
consistent N true pv w ->
placed_vector.put_in_place N pv w = Ret ((b, pv'), w') ->
placed_vector.this pv' = placed_vector.this pv
/\ placed_vector.size pv' = placed_vector.size pv
/\ placed_vector.elements pv' w' = placed_vector.elements pv w
/\ (0 < N -> b = bool_decide (placed_vector.size pv <= N))
/\ (0 < N -> b = true ->
    data_of pv' = inline_of pv' /\ placed_vector.capacity pv' = N).
Proof.
intros Hc Hput.
assert (Hsc : placed_vector.size pv <= placed_vector.capacity pv)
  by apply Hc.
destruct (decide (data_of pv = inline_of pv
                  /\ placed_vector.capacity pv = N)) as [[Hd Hcap]|Hnot].
{ rewrite (put_in_place_settled N _ _ _ Hc Hd Hcap) in Hput.
  injection Hput as <- <- <-. split_and!; try done.
  intros _. by rewrite bool_decide_eq_true_2 by lia. }
destruct (decide (N < placed_vector.size pv)) as [Hbig|Hfit].
{ rewrite (put_in_place_too_big N _ _ _ Hc Hbig) in Hput.
  injection Hput as <- <- <-. split_and!; try done.
  intros _. by rewrite bool_decide_eq_false_2 by lia. }
rewrite (put_in_place_coerce N _ _ _ Hc ltac:(lia) Hnot) in Hput.
destruct (coerce_trace N pv w Hc ltac:(lia) ltac:(congruence))
  as (pv1 & w1 & w2 & pv3 & w3 & w4 & pv5 & w5 & Htrace).
simpl in Htrace.
destruct Htrace
  as (_&_&_&_&_&_&_&_&_&_&_&_& Hc5 & Hin5 & Hthis5 & Hsz5 & Hel5 & Heq).
rewrite Heq in Hput. injection Hput as <- <- <-.
split_and!; try done.
- intros HN. destruct (Hin5 HN) as [Hd5 _].
  rewrite Hthis5, (bool_decide_eq_true_2 _ Hd5).
  by rewrite bool_decide_eq_true_2 by lia.
- intros HN _. destruct (Hin5 HN) as [Hd5 Hcap5].
  by rewrite Hthis5.
Qed.

(** A request the inline buffer can serve, or the free store can, does not
  throw. *)
Lemma reallocate_no_throw en pv w n :
consistent N en pv w ->
(en = true /\ data_of pv <> inline_of pv /\ n <= N)
\/ n <= avail (free_store w) ->
vector.reallocate n (placed_vector.base pv) w <> Throw.
Proof.
intros (Hd & Hb & Hsc & Hlen) Hok.
open_state pv w.
destruct Hd as (-> & pm & Hpm & Hpb & Hsz & Hen & Hus).
destruct pm as [us en' pb sz]; simpl in *; subst.
rewrite Hpm; simpl.
destruct d as [|o|k]; [| destruct Hb as [-> Hb] |].
- rewrite bool_decide_eq_false_2 in * by done.
  destruct en; simpl; branches;
    solve [done | intuition lia | intuition congruence].
- rewrite bool_decide_eq_true_2 in * by done.
  destruct en; simpl; branches; simplify_map_eq/=;
    solve [done | intuition lia | intuition congruence].
- rewrite bool_decide_eq_false_2 in * by done.
  destruct Hb as [Hk Hlt].
  assert (k <> nx) by lia. assert (nx <> k) by lia.
  destruct en; simpl; branches; simplify_map_eq/=;
    solve [done | intuition lia | intuition congruence].
Qed.

Lemma reserve_no_throw en pv w n :
consistent N en pv w ->
n <= placed_vector.capacity pv
\/ (en = true /\ data_of pv <> inline_of pv /\ n <= N)
\/ n <= avail (free_store w) ->
placed_vector.reserve n pv w <> Throw.
Proof.
intros Hc Hok.
unfold placed_vector.reserve, placed_vector.lift, vector.reserve,
  placed_vector.capacity in *.
destruct (decide (vector.capacity (placed_vector.base pv) < n)) as [Hlt|Hge].
- pose proof (reallocate_no_throw en pv w n Hc ltac:(intuition lia)) as Hr.
  unfold bind at 1.
  by destruct (vector.reallocate n (placed_vector.base pv) w)
    as [[v' w']| |].
- done.
Qed.

Lemma shrink_to_fit_no_throw en pv w :
consistent N en pv w ->
(en = true /\ data_of pv <> inline_of pv /\ placed_vector.size pv <= N)
\/ placed_vector.size pv <= avail (free_store w) ->
placed_vector.shrink_to_fit pv w <> Throw.
Proof.
intros Hc Hok.
unfold placed_vector.shrink_to_fit, placed_vector.lift,
  vector.shrink_to_fit, placed_vector.size in *.
destruct (decide (vector.size (placed_vector.base pv)
                  < vector.capacity (placed_vector.base pv))) as [Hlt|Hge];
  [|done].
destruct (decide (vector.size (placed_vector.base pv) = 0)) as [Hz|Hnz].
- pose proof (tidy_spec N en pv w Hc) as Hr. unfold bind at 1.
  by destruct (vector.tidy (placed_vector.base pv) w) as [[v' w']| |].
- pose proof (reallocate_no_throw en pv w _ Hc Hok) as Hr.
  unfold bind at 1.
  by destruct (vector.reallocate _ (placed_vector.base pv) w)
    as [[v' w']| |].
Qed.

(** The default constructor writes the descriptor and the buffer of the new
  object and nothing else. *)
Lemma construct_frame self w pv w' :
placed_vector.construct N self w = Ret (pv, w') ->
(forall o, o <> self -> places w' !! o = places w !! o)
/\ (forall p, p <> bytes_of self -> store w' !! p = store w !! p)
/\ free_store w' = free_store w
/\ (data_of pv = nullptr \/ data_of pv = bytes_of self).
Proof.
unfold placed_vector.construct, managed_place.construct,
  place_manager.construct.
unfold_ops. destruct w as [pl st [lv nx av]]; simpl.
destruct (decide (0 < N)) as [HN|HN]; simpl.
- rewrite lookup_insert_eq; simpl.
  rewrite bool_decide_eq_true_2 by done; simpl.
  intros [= <- <-]. simpl. split_and!; try done; [| |by right].
  + intros o Ho. by rewrite !lookup_insert_ne.
  + intros p Hp. by rewrite lookup_insert_ne.
- intros [= <- <-]. simpl. split_and!; try done; [|by left].
  intros o Ho. by rewrite lookup_insert_ne.
Qed.

(** A request beyond [N] that the free store cannot serve throws. *)
Lemma reserve_throws en pv w n :
consistent N en pv w ->
placed_vector.capacity pv < n -> N < n -> avail (free_store w) < n ->
placed_vector.reserve n pv w = Throw.
Proof.
intros ((Hal & pm & Hpm & _ & Hsz & _) & _) Hcap HN Hav.
unfold placed_vector.reserve, placed_vector.lift, vector.reserve,
  placed_vector.capacity in *.
rewrite decide_True by done.
unfold bind at 1. unfold vector.reallocate. unfold bind at 1.
unfold allocator_in_place.allocate. rewrite Hal, Hpm, Hsz.
rewrite (bool_decide_eq_false_2 (n <= N)) by lia. rewrite andb_false_r.
unfold std_allocator.allocate. by rewrite decide_False by lia.
Qed.
End Effects.

Section GrowingEffects.
Context {T : Type}.
Variable N : nat.
Variable growth : nat -> nat.
Hypothesis growth_gt : forall c, c < growth c.

Implicit Types (pv : placed_vector.t) (v : vector.t) (w : world T).

Lemma push_back_effect en pv w (x : T) :
consistent N en pv w ->
match placed_vector.push_back growth x pv w with
| Ret (pv', w') =>
    untouched pv w pv' w'
    /\ avail (free_store w') + held pv'
       = avail (free_store w) + held pv
| _ => True
end.
Proof.
intros Hc.
unfold placed_vector.push_back, placed_vector.lift, vector.push_back.
destruct (decide (vector.size (placed_vector.base pv)
                  = vector.capacity (placed_vector.base pv))) as [Heq|Hne].
- pose proof (growth_gt (vector.capacity (placed_vector.base pv))) as Hg.
  pose proof (reallocate_effect N en pv w
                (growth (vector.capacity (placed_vector.base pv))) Hc
                ltac:(lia)) as Hr.
  unfold bind at 1 2.
  destruct (vector.reallocate _ (placed_vector.base pv) w)
    as [[v1 w1]| |]; [|done..].
  cbv beta iota delta [bind ret obind fst snd].
  destruct Hr as (U1 & A1 & _).
  destruct (untouched_own (placed_vector.with_base pv v1) w1
              (placed_vector.with_base pv
                 (vector.set_size (S (vector.size v1)) v1))
              (set_store <[vector.data v1
                           := vector.elements v1 w1 ++ [x]]> w1))
    as [U2 A2]; try done.
  { intros p Hp. simpl in *. by rewrite lookup_insert_ne. }
  split; [by eapply untouched_trans | ].
  unfold placed_vector.with_base in *. simpl in *. lia.
- cbv beta iota delta [bind ret obind fst snd].
  apply untouched_own; try done.
  intros p Hp. simpl. by rewrite lookup_insert_ne.
Qed.

Lemma apply_effect o pv w :
consistent N true pv w ->
match apply N growth o pv w with
| Ret (pv', w') =>
    untouched pv w pv' w'
    /\ avail (free_store w') + held pv'
       = avail (free_store w) + held pv
| _ => True
end.
Proof.
intros Hc. destruct o as [x| | |i x|n| |]; simpl.
- by apply (push_back_effect true).
- apply pop_back_effect.
- apply clear_effect.
- apply assign_at_effect.
- by eapply reserve_effect.
- by eapply shrink_to_fit_effect.
- unfold bind.
  destruct (placed_vector.put_in_place N pv w)
    as [[[b pv1] w1]| |] eqn:E; simpl; [|done..].
  by eapply put_in_place_effect.
Qed.
End GrowingEffects.

(** * More properties of the code *)

Section AllocatorProperties.
Context {T : Type}.

Implicit Types (w : world T) (a : allocator_in_place.t).

(** X1: an [allocate] that the inline buffer serves, followed by the
  [deallocate] of the pointer it returned, leaves the world exactly as it
  was, whatever the size passed to [deallocate]. *)
Theorem allocate_deallocate_inline a o pm (n n' : nat) w :
allocator_in_place.m_place a = Some o ->
places w !! o = Some pm ->
place_manager.is_enabled pm = true ->
place_manager.is_used pm = false ->
n <= place_manager.size pm ->
exists w1,
  allocator_in_place.allocate a n w = Ret (place_manager.p_bytes pm, w1)
  /\ allocator_in_place.deallocate a (place_manager.p_bytes pm) n' w1
     = Ret (tt, w).
Proof.
intros Ha Hpm Hen Hus Hn.
unfold allocator_in_place.allocate, allocator_in_place.deallocate.
rewrite Ha, Hpm, Hen, Hus, bool_decide_eq_true_2 by done. simpl.
eexists. split; [reflexivity|]. simpl.
rewrite lookup_insert_eq. simpl. rewrite decide_True by done.
do 2 f_equal. destruct w as [pl st fs]. unfold set_places. simpl in *.
f_equal. rewrite insert_insert_eq. apply insert_id.
rewrite Hpm. f_equal. destruct pm; simpl in *. by subst.
Qed.

(** X2: while the inline buffer is handed out, [is_in_place] returns true
  and every further [allocate], of any size, is answered by the fallback
  allocator: the buffer is never handed out twice. *)
Theorem inline_buffer_handed_out_once a o pm (n m : nat) w p w1 :
allocator_in_place.m_place a = Some o ->
places w !! o = Some pm ->
place_manager.is_enabled pm = true ->
place_manager.is_used pm = false ->
n <= place_manager.size pm ->
allocator_in_place.allocate a n w = Ret (p, w1) ->
allocator_in_place.is_in_place a w1 = Ret true
/\ allocator_in_place.allocate a m w1 = std_allocator.allocate m w1.
Proof.
intros Ha Hpm Hen Hus Hn.
unfold allocator_in_place.allocate, allocator_in_place.is_in_place.
rewrite Ha, Hpm, Hen, Hus, bool_decide_eq_true_2 by done. simpl.
intros [= <- <-]. simpl. rewrite lookup_insert_eq. simpl.
by rewrite andb_false_r.
Qed.
End AllocatorProperties.

Section VectorWithoutPlace.
Context {T : Type}.
Variable growth : nat -> nat.

Implicit Types (v : vector.t) (w : world T).

Lemma release_without_place v w :
allocator_in_place.m_place (vector.alloc v) = None ->
vector.data v <> nullptr ->
vector.release v w = Undefined.
Proof.
intros Ha Hd. unfold vector.release. rewrite decide_False by done.
unfold bind, modify, allocator_in_place.deallocate. simpl. by rewrite Ha.
Qed.

Lemma reallocate_without_place v w n r :
allocator_in_place.m_place (vector.alloc v) = None ->
vector.data v <> nullptr ->
vector.reallocate n v w <> Ret r.
Proof.
intros Ha Hd. unfold vector.reallocate. unfold bind at 1.
destruct (allocator_in_place.allocate (vector.alloc v) n w)
  as [[p w1]| |]; simpl; [|done..].
unfold bind at 1. unfold modify at 1. simpl. unfold bind at 1.
by rewrite (release_without_place v _ Ha Hd).
Qed.

(** X3: a vector over an [allocator_in_place] that was given no place, as
  the default argument of the constructor leaves it, cannot release a
  block: once it holds one, no [reserve] beyond its capacity, no
  [shrink_to_fit] of spare capacity and no [push_back] on a full vector
  ever returns. *)
Theorem vector_without_place_stuck v w :
allocator_in_place.m_place (vector.alloc v) = None ->
vector.data v <> nullptr ->
(forall n r, vector.capacity v < n -> vector.reserve n v w <> Ret r)
/\ (forall r, vector.size v < vector.capacity v ->
      vector.shrink_to_fit v w <> Ret r)
/\ (forall x r, vector.size v = vector.capacity v ->
      vector.push_back growth x v w <> Ret r).
Proof.
intros Ha Hd. split_and!.
- intros n r Hlt. unfold vector.reserve. rewrite decide_True by done.
  by apply reallocate_without_place.
- intros r Hlt. unfold vector.shrink_to_fit. rewrite decide_True by done.
  destruct (decide (vector.size v = 0)).
  + unfold vector.tidy, bind.
    by rewrite (release_without_place v _ Ha Hd).
  + by apply reallocate_without_place.
- intros x r Heq. unfold vector.push_back. rewrite decide_True by done.
  unfold bind at 1.
  pose proof (reallocate_without_place v w
                (growth (vector.capacity v))) as Hr.
  destruct (vector.reallocate (growth (vector.capacity v)) v w)
    as [[v1 w1]| |]; simpl; [|done..].
  by destruct (Hr (v1, w1) Ha Hd).
Qed.
End VectorWithoutPlace.

Section MoreProperties.
Context {T : Type}.
Variable N : nat.
Variable growth : nat -> nat.

Implicit Types (pv : placed_vector.t) (v : vector.t) (w : world T).

(** X4: on storage in which no descriptor was ever constructed, copy
  construction returns exactly when the source is empty, and then yields
  an empty vector without storage; with any element to copy, the base
  reads [m_place] before its construction. *)
Theorem copy_construct_on_fresh_storage self other w :
places w !! self = None ->
(placed_vector.size other = 0 ->
   exists pv w',
     placed_vector.copy_construct N self other w = Ret (pv, w')
     /\ placed_vector.size pv = 0
     /\ placed_vector.capacity pv = 0
     /\ data_of pv = nullptr
     /\ free_store w' = free_store w)
/\ (placed_vector.size other <> 0 ->
    placed_vector.copy_construct N self other w = Undefined).
Proof.
intros Hfresh.
unfold placed_vector.copy_construct, vector.copy_construct,
  placed_vector.size, placed_vector.capacity.
split; intros Hsz.
- unfold bind at 1. rewrite decide_True by done. simpl.
  do 2 eexists. split; [reflexivity|]. done.
- unfold bind at 1. rewrite decide_False by done.
  unfold bind at 1. unfold allocator_in_place.allocate at 1. simpl.
  by rewrite Hfresh.
Qed.
End MoreProperties.

Section LifeProperties.
Context {T : Type}.
Variable N : nat.
Variable growth : nat -> nat.
Hypothesis growth_gt : forall c, c < growth c.

Implicit Types (pv : placed_vector.t) (v : vector.t) (w : world T).

Lemma elements_length en pv w :
consistent N en pv w ->
length (placed_vector.elements pv w) = placed_vector.size pv.
Proof.
intros (_ & _ & _ & Hlen).
unfold placed_vector.elements, vector.elements.
rewrite length_take. unfold placed_vector.size in *. lia.
Qed.

(** Each operation on a consistent vector: undefined only where
  [std::vector] itself is, and otherwise the list operation. *)
Lemma apply_outcome o pv w :
consistent N true pv w ->
match apply N growth o pv w with
| Ret (pv', w') =>
    consistent N true pv' w'
    /\ placed_vector.elements pv' w' = denote o (placed_vector.elements pv w)
| Throw => True
| Undefined =>
    (o = PopBack /\ placed_vector.size pv = 0)
    \/ (exists i x, o = AssignAt i x /\ placed_vector.size pv <= i)
end.
Proof.
intros Hc. pose proof (elements_length _ _ _ Hc) as Hlen.
destruct o as [x| | |i x|n| |]; unfold apply, denote.
- pose proof (push_back_spec N growth growth_gt true pv w x Hc) as H.
  destruct (placed_vector.push_back growth x pv w) as [[pv1 w1]| |];
    [|done..].
  by destruct H as (? & _ & _ & ? & _).
- pose proof (pop_back_spec N true pv w Hc) as H.
  destruct (placed_vector.pop_back pv w) as [[pv1 w1]| |]; [|done|].
  + destruct H as (_ & ? & _ & _ & ? & _). by rewrite Hlen.
  + by left.
- pose proof (clear_spec N true pv w Hc) as H.
  destruct (placed_vector.clear pv w) as [[pv1 w1]| |]; [|done..].
  by destruct H as (? & _ & _ & ? & _).
- pose proof (assign_at_spec N true pv w i x Hc) as H.
  destruct (placed_vector.assign_at i x pv w) as [[pv1 w1]| |]; [|done|].
  + by destruct H as (_ & ? & _ & ?).
  + right. by exists i, x.
- pose proof (reserve_spec N true pv w n Hc) as H.
  destruct (placed_vector.reserve n pv w) as [[pv1 w1]| |]; [|done..].
  by destruct H as (? & _ & _ & ? & _).
- pose proof (shrink_to_fit_spec N true pv w Hc) as H.
  destruct (placed_vector.shrink_to_fit pv w) as [[pv1 w1]| |]; [|done..].
  by destruct H as (? & _ & _ & ? & _).
- unfold bind.
  destruct (decide (data_of pv = inline_of pv
                    /\ placed_vector.capacity pv = N)) as [[Hd Hcap]|Hnot].
  { by rewrite (put_in_place_settled N _ _ _ Hc Hd Hcap). }
  destruct (decide (N < placed_vector.size pv)) as [Hbig|Hfit].
  { by rewrite (put_in_place_too_big N _ _ _ Hc Hbig). }
  rewrite (put_in_place_coerce N _ _ _ Hc ltac:(lia) Hnot).
  destruct (coerce N pv w) as [[[b pv1] w1]| |] eqn:E; simpl; [|done|].
  + rewrite <- (put_in_place_coerce N _ _ _ Hc ltac:(lia) Hnot) in E.
    split; [by eapply put_in_place_consistent|].
    by destruct (put_in_place_result N _ _ _ _ _ Hc E) as (_ & _ & ? & _).
  + destruct (coerce_trace N pv w Hc ltac:(lia) ltac:(congruence))
      as (?&?&?&?&?&?&?&?& Htrace).
    simpl in Htrace.
    destruct Htrace as (_&_&_&_&_&_&_&_&_&_&_&_&_&_&_&_&_& Heq).
    congruence.
Qed.

(** X5: on a placed_vector, at any point of its life, an operation is
  undefined in two cases only, those of [std::vector] itself: [pop_back]
  on an empty vector and an assignment past the last element.  No
  operation releases a block its allocator does not own or reads a
  descriptor that is not there. *)
Theorem operations_defined o pv w :
reachable N growth pv w ->
apply N growth o pv w = Undefined
<-> (o = PopBack /\ placed_vector.size pv = 0)
    \/ (exists i x, o = AssignAt i x /\ placed_vector.size pv <= i).
Proof.
intros Hr.
pose proof (reachable_consistent N growth growth_gt pv w Hr) as Hc.
pose proof (apply_outcome o pv w Hc) as H.
split.
- intros E. by rewrite E in H.
- intros [[-> Hsz]|(i & x & -> & Hsz)]; simpl.
  + pose proof (pop_back_spec N true pv w Hc) as Hp.
    destruct (placed_vector.pop_back pv w) as [[pv1 w1]| |];
      [destruct Hp; lia | done | done].
  + pose proof (assign_at_spec N true pv w i x Hc) as Hp.
    destruct (placed_vector.assign_at i x pv w) as [[pv1 w1]| |];
      [destruct Hp; lia | done | done].
Qed.

(** X6: whatever the storage does underneath, every operation that returns
  acts on the element sequence as the list operation of the same name:
  an append adds at the end, a removal drops the last element, and
  [reserve], [shrink_to_fit] and [put_in_place] keep the elements, in
  order; and the size is the length of the sequence. *)
Theorem operations_act_on_elements o pv w pv' w' :
reachable N growth pv w ->
apply N growth o pv w = Ret (pv', w') ->
placed_vector.elements pv' w' = denote o (placed_vector.elements pv w)
/\ length (placed_vector.elements pv' w') = placed_vector.size pv'.
Proof.
intros Hr E.
pose proof (reachable_consistent N growth growth_gt pv w Hr) as Hc.
pose proof (apply_outcome o pv w Hc) as H. rewrite E in H.
destruct H as [Hc' Hel]. split; [done|]. by eapply elements_length.
Qed.

(** X7: a [put_in_place()] that has returned true ([N] positive) leaves the
  vector with capacity exactly [N], holding no fallback memory, all of
  what it held being back in the free store; and a second call returns
  true at once, changing nothing. *)
Theorem put_in_place_idempotent pv w pv' w' :
0 < N ->
reachable N growth pv w ->
placed_vector.put_in_place N pv w = Ret ((true, pv'), w') ->
placed_vector.capacity pv' = N
/\ held pv' = 0
/\ avail (free_store w') = avail (free_store w) + held pv
/\ placed_vector.put_in_place N pv' w' = Ret ((true, pv'), w').
Proof.
intros HN Hr E.
pose proof (reachable_consistent N growth growth_gt pv w Hr) as Hc.
pose proof (put_in_place_consistent N _ _ _ _ _ Hc E) as Hc'.
destruct (put_in_place_result N _ _ _ _ _ Hc E) as (_ & _ & _ & _ & Hin).
destruct (Hin HN eq_refl) as [Hd Hcap].
destruct (put_in_place_effect N _ _ _ _ _ Hc E) as [_ Hav].
assert (Hheld : held pv' = 0) by (unfold held; by rewrite Hd).
split_and!; [done|done|lia|].
by apply (put_in_place_settled N true).
Qed.

(** X8: at any point of the life of a placed_vector, [is_in_place()]
  returns; when it returns true the capacity is at most [N]; and a
  vector of more than [N] elements is not in place, whatever was done to
  it. *)
Theorem in_place_bounds pv w :
reachable N growth pv w ->
(exists b, placed_vector.is_in_place pv w = Ret b)
/\ (placed_vector.is_in_place pv w = Ret true ->
    placed_vector.capacity pv <= N)
/\ (N < placed_vector.size pv ->
    placed_vector.is_in_place pv w = Ret false).
Proof.
intros Hr.
pose proof (reachable_consistent N growth growth_gt pv w Hr) as Hc.
rewrite (is_in_place_consistent N _ _ _ Hc).
destruct Hc as (_ & Hown & Hsc & _). unfold owns_block in Hown.
split_and!.
- by eexists.
- intros [= Hd]. apply bool_decide_eq_true in Hd. rewrite Hd in Hown. lia.
- intros Hbig. rewrite bool_decide_eq_false_2; [done|].
  intros Hd. rewrite Hd in Hown. lia.
Qed.

Lemma applies_effect os pv w pv' w' :
consistent N true pv w ->
applies N growth os pv w = Ret (pv', w') ->
avail (free_store w') + held pv' = avail (free_store w) + held pv.
Proof.
revert pv w. induction os as [|o os IH]; intros pv w Hc; simpl.
- unfold ret. by intros [= <- <-].
- unfold bind.
  pose proof (apply_effect N growth growth_gt o pv w Hc) as He.
  pose proof (apply_outcome o pv w Hc) as Ho.
  destruct (apply N growth o pv w) as [[pv1 w1]| |]; simpl; [|done..].
  intros E. destruct Ho as [Hc1 _]. destruct He as [_ Hav].
  rewrite (IH pv1 w1 Hc1 E). done.
Qed.

(** X9: over the life of a default-constructed placed_vector the fallback
  memory is accounted for: after any operations, what the free store has
  left and what the vector holds add up to what the free store had at
  construction.  Nothing leaks at a change of storage, in either
  direction. *)
Theorem fallback_memory_conserved self w0 os pv w :
(let! pv := placed_vector.construct N self in
 applies N growth os pv) w0 = Ret (pv, w) ->
avail (free_store w) + held pv = avail (free_store w0).
Proof.
destruct (construct_spec N self w0)
  as (pv0 & w1 & E0 & Hc0 & _ & _ & Hcap0 & Hd0 & Hfs0).
rewrite (bind_Ret _ _ _ _ _ E0). intros E.
rewrite (applies_effect os pv0 w1 pv w Hc0 E), Hfs0.
assert (held pv0 = 0) as ->; [|lia].
unfold held. destruct (decide (0 < N)) as [HN|HN].
- by rewrite (Hd0 HN).
- destruct (data_of pv0); lia.
Qed.

Lemma coerce_no_throw pv w :
consistent N true pv w ->
placed_vector.size pv <= N ->
N + 1 + placed_vector.size pv <= avail (free_store w) ->
coerce N pv w <> Throw.
Proof.
intros Hc Hsz Hav. unfold coerce.
(* reserve(N + 1) *)
pose proof (reserve_spec N true pv w (N + 1) Hc) as H1.
pose proof (reserve_effect N true pv w (N + 1) Hc) as F1.
pose proof (reserve_no_throw N true pv w (N + 1) Hc ltac:(lia)) as T1.
destruct (placed_vector.reserve (N + 1) pv w) as [[pv1 w1]| |] eqn:E1;
  [|done..].
rewrite (bind_Ret _ _ _ _ _ E1).
destruct H1 as (Hc1 & _ & Hsz1 & _ & Hsame1 & Hnew1).
destruct F1 as [_ A1].
assert (Hav1 : placed_vector.size pv1 <= avail (free_store w1)).
{ destruct (decide (N + 1 <= placed_vector.capacity pv)) as [Hle|Hgt].
  - destruct (Hsame1 Hle) as [-> ->]. lia.
  - destruct (Hnew1 ltac:(lia)) as [Hcap1 _].
    assert (held pv1 <= N + 1).
    { unfold held. rewrite <- Hcap1. destruct (data_of pv1); lia. }
    lia. }
(* the conditional disable *)
set (en := bool_decide (placed_vector.size pv1 = N)).
assert (exists w2,
  (if decide (placed_vector.size pv1 <> N)
   then placed_vector.set_enabled false pv1 else ret tt) w1 = Ret (tt, w2)
  /\ consistent N en pv1 w2 /\ free_store w2 = free_store w1)
  as (w2 & E2 & Hc2 & Hfs2).
{ subst en. destruct (decide (placed_vector.size pv1 <> N)).
  - destruct (set_enabled_spec N true false pv1 w1 Hc1)
      as (w2 & ? & ? & _ & ? & _).
    exists w2. by rewrite bool_decide_eq_false_2.
  - exists w1. rewrite bool_decide_eq_true_2 by lia. done. }
rewrite (bind_Ret _ _ _ _ _ E2).
(* shrink_to_fit *)
pose proof (shrink_to_fit_spec N en pv1 w2 Hc2) as H3.
pose proof (shrink_to_fit_no_throw N en pv1 w2 Hc2
              ltac:(right; rewrite Hfs2; lia)) as T3.
destruct (placed_vector.shrink_to_fit pv1 w2) as [[pv3 w3]| |] eqn:E3;
  [|done..].
rewrite (bind_Ret _ _ _ _ _ E3).
destruct H3 as (Hc3 & _ & Hsz3 & _).
(* re-enable *)
destruct (set_enabled_spec N en true pv3 w3 Hc3)
  as (w4 & E4 & Hc4 & _).
rewrite (bind_Ret _ _ _ _ _ E4).
(* reserve(N) *)
pose proof (reserve_spec N true pv3 w4 N Hc4) as H5.
assert (T5 : placed_vector.reserve N pv3 w4 <> Throw).
{ apply (reserve_no_throw N true); [done|].
  destruct (decide (data_of pv3 = inline_of pv3)) as [Hd|Hd].
  - left. destruct Hc4 as (_ & Hown & Hsc & _).
    unfold owns_block in Hown. rewrite Hd in Hown.
    destruct (decide (N <= placed_vector.capacity pv3)); [done|].
    exfalso.
    (* in place below [N]: the shrink took the buffer, so the size is [N] *)
    pose proof (shrink_to_fit_spec N en pv1 w2 Hc2) as H3'.
    rewrite E3 in H3'.
    destruct H3' as (_ & Hthis3 & _ & _ & Hsame3 & Hnew3).
    assert (Hcap1 : N < placed_vector.capacity pv1).
    { destruct (decide (N + 1 <= placed_vector.capacity pv)) as [Hle|Hgt].
      - destruct (Hsame1 Hle) as [-> _]. lia.
      - destruct (Hnew1 ltac:(lia)) as [-> _]. lia. }
    destruct (Hnew3 ltac:(lia)) as [Hcap3 Hiff3].
    rewrite Hthis3 in Hd. apply Hiff3 in Hd as (Hen & _).
    subst en. apply bool_decide_eq_true in Hen. lia.
  - right. left. done. }
destruct (placed_vector.reserve N pv3 w4) as [[pv5 w5]| |] eqn:E5;
  [|done..].
rewrite (bind_Ret _ _ _ _ _ E5).
destruct H5 as (Hc5 & _).
unfold bind, inspect. rewrite (is_in_place_consistent N _ _ _ Hc5). done.
Qed.

(** X10: [put_in_place()] never fails for want of memory when the free
  store has room for [N + 1] elements and a copy of the vector's own:
  it returns, and with true when the size is at most [N] ([N]
  positive). *)
Theorem put_in_place_enough_memory pv w :
0 < N ->
reachable N growth pv w ->
N + 1 + placed_vector.size pv <= avail (free_store w) ->
exists pv' w',
  placed_vector.put_in_place N pv w
  = Ret ((bool_decide (placed_vector.size pv <= N), pv'), w').
Proof.
intros HN Hr Hav.
pose proof (reachable_consistent N growth growth_gt pv w Hr) as Hc.
assert (Hret : exists b pv' w',
          placed_vector.put_in_place N pv w = Ret ((b, pv'), w')).
{ destruct (decide (data_of pv = inline_of pv
                    /\ placed_vector.capacity pv = N)) as [[Hd Hcap]|Hnot].
  { rewrite (put_in_place_settled N _ _ _ Hc Hd Hcap). by eexists _, _, _. }
  destruct (decide (N < placed_vector.size pv)) as [Hbig|Hfit].
  { rewrite (put_in_place_too_big N _ _ _ Hc Hbig). by eexists _, _, _. }
  rewrite (put_in_place_coerce N _ _ _ Hc ltac:(lia) Hnot).
  pose proof (coerce_no_throw pv w Hc ltac:(lia) Hav) as Hnt.
  destruct (coerce_trace N pv w Hc ltac:(lia) Hnt)
    as (?&?&?&?&?&?& pv5 & w5 & Htrace).
  simpl in Htrace.
  destruct Htrace as (_&_&_&_&_&_&_&_&_&_&_&_&_&_&_&_&_& Heq).
  rewrite Heq. by eexists _, _, _. }
destruct Hret as (b & pv' & w' & E).
destruct (put_in_place_result N _ _ _ _ _ Hc E) as (_ & _ & _ & Hb & _).
exists pv', w'. by rewrite E, (Hb HN).
Qed.

(** X11: [shrink_to_fit()] on a vector that is in place with spare
  capacity takes it out of place: the buffer is still marked used when
  the smaller block is asked for, so the fallback allocator serves it
  (and nothing serves an empty vector).  The elements are kept. *)
Theorem shrink_to_fit_leaves_place pv w :
reachable N growth pv w ->
placed_vector.is_in_place pv w = Ret true ->
placed_vector.size pv < placed_vector.capacity pv ->
placed_vector.shrink_to_fit pv w <> Throw ->
exists pv' w',
  placed_vector.shrink_to_fit pv w = Ret (pv', w')
  /\ placed_vector.is_in_place pv' w' = Ret false
  /\ placed_vector.capacity pv' = placed_vector.size pv
  /\ placed_vector.elements pv' w' = placed_vector.elements pv w.
Proof.
intros Hr Hin Hspare Hnt.
pose proof (reachable_consistent N growth growth_gt pv w Hr) as Hc.
rewrite (is_in_place_consistent N _ _ _ Hc) in Hin.
injection Hin as Hin. apply bool_decide_eq_true in Hin.
pose proof (shrink_to_fit_spec N true pv w Hc) as H.
destruct (placed_vector.shrink_to_fit pv w) as [[pv' w']| |]; [|done..].
destruct H as (Hc' & Hthis & _ & Hel & _ & Hnew).
destruct (Hnew Hspare) as [Hcap Hiff].
exists pv', w'. split_and!; try done.
rewrite (is_in_place_consistent N _ _ _ Hc'), Hthis.
rewrite bool_decide_eq_false_2; [done|].
intros Hd. apply Hiff in Hd. by destruct Hd as (_ & ? & _).
Qed.

(** X12: on a vector that is not in place, a [reserve(n)] beyond its
  capacity with [n <= N] always returns and brings it in place with
  capacity [n]: the inline buffer serves it, the fallback block is given
  back, and the elements are kept. *)
Theorem reserve_returns_in_place pv w n :
reachable N growth pv w ->
placed_vector.is_in_place pv w = Ret false ->
placed_vector.capacity pv < n ->
n <= N ->
exists pv' w',
  placed_vector.reserve n pv w = Ret (pv', w')
  /\ placed_vector.is_in_place pv' w' = Ret true
  /\ placed_vector.capacity pv' = n
  /\ placed_vector.elements pv' w' = placed_vector.elements pv w
  /\ avail (free_store w') = avail (free_store w) + held pv.
Proof.
intros Hr Hin Hcap Hn.
pose proof (reachable_consistent N growth growth_gt pv w Hr) as Hc.
rewrite (is_in_place_consistent N _ _ _ Hc) in Hin.
injection Hin as Hin. apply bool_decide_eq_false in Hin.
pose proof (reserve_spec N true pv w n Hc) as H.
pose proof (reserve_effect N true pv w n Hc) as F.
pose proof (reserve_no_throw N true pv w n Hc
              ltac:(right; left; done)) as Hnt.
destruct (placed_vector.reserve n pv w) as [[pv' w']| |]; [|done..].
destruct H as (Hc' & Hthis & _ & Hel & _ & Hnew).
destruct (Hnew Hcap) as (Hcap' & Hiff & _).
assert (Hd : data_of pv' = inline_of pv) by (by apply Hiff).
destruct F as [_ Hav].
exists pv', w'. split_and!; try done.
- rewrite (is_in_place_consistent N _ _ _ Hc'), Hthis.
  by rewrite bool_decide_eq_true_2.
- unfold held in Hav at 1. rewrite Hd in Hav. lia.
Qed.

(** X14: [put_in_place()] goes through the fallback allocator even when the
  elements would fit the inline buffer: on a vector of capacity at most
  [N] that is not already in place with capacity [N], it throws
  [std::bad_alloc] when the free store has no room for [N + 1]
  elements. *)
Theorem put_in_place_needs_fallback pv w :
reachable N growth pv w ->
placed_vector.capacity pv <= N ->
~ (placed_vector.is_in_place pv w = Ret true
   /\ placed_vector.capacity pv = N) ->
avail (free_store w) < N + 1 ->
placed_vector.put_in_place N pv w = Throw.
Proof.
intros Hr Hcap Hnot Hav.
pose proof (reachable_consistent N growth growth_gt pv w Hr) as Hc.
assert (Hsc : placed_vector.size pv <= placed_vector.capacity pv)
  by apply Hc.
rewrite (is_in_place_consistent N _ _ _ Hc) in Hnot.
rewrite (put_in_place_coerce N _ _ _ Hc ltac:(lia)).
- unfold coerce. apply bind_Throw.
  apply (reserve_throws N true); [done|lia..].
- intros [Hd Hcap']. apply Hnot. by rewrite bool_decide_eq_true_2.
Qed.

(** X15: between two operations the descriptor of a placed_vector records
  its own buffer and [N], and is enabled: [put_in_place()] re-enables it
  whenever it returns, so a later request of at most [N] elements can be
  served by the buffer again. *)
Theorem descriptor_stays_enabled pv w :
reachable N growth pv w ->
exists pm,
  places w !! placed_vector.this pv = Some pm
  /\ place_manager.is_enabled pm = true
  /\ place_manager.size pm = N
  /\ place_manager.p_bytes pm = inline_of pv.
Proof.
intros Hr.
destruct (reachable_consistent N growth growth_gt pv w Hr)
  as ((_ & pm & Hpm & Hpb & Hsz & Hen & _) & _).
by exists pm.
Qed.

(** X16: a [push_back] on a full vector moves it to a block of
  [growth capacity] elements, and the vector is in place afterwards
  exactly when it was not in place before and the new capacity is at most
  [N]: a full vector that is in place always leaves its buffer, even
  when its capacity was below [N]. *)
Theorem push_back_on_full x pv w pv' w' :
reachable N growth pv w ->
placed_vector.size pv = placed_vector.capacity pv ->
placed_vector.push_back growth x pv w = Ret (pv', w') ->
placed_vector.capacity pv' = growth (placed_vector.capacity pv)
/\ (placed_vector.is_in_place pv' w' = Ret true
    <-> placed_vector.is_in_place pv w = Ret false
        /\ growth (placed_vector.capacity pv) <= N).
Proof.
intros Hr Hfull E.
pose proof (reachable_consistent N growth growth_gt pv w Hr) as Hc.
pose proof (push_back_spec N growth growth_gt true pv w x Hc) as Hs.
rewrite E in Hs. destruct Hs as (Hc' & Hthis & _).
rewrite (is_in_place_consistent N _ _ _ Hc),
  (is_in_place_consistent N _ _ _ Hc'), Hthis.
revert E.
unfold placed_vector.push_back, placed_vector.lift, vector.push_back,
  placed_vector.size, placed_vector.capacity in *.
rewrite decide_True by done.
pose proof (growth_gt (vector.capacity (placed_vector.base pv))) as Hg.
pose proof (reallocate_spec N true pv w
              (growth (vector.capacity (placed_vector.base pv))) Hc
              ltac:(lia) ltac:(unfold placed_vector.size; lia)) as Hrs.
unfold bind at 1 2.
destruct (vector.reallocate _ (placed_vector.base pv) w)
  as [[v1 w1]| |]; [|done..].
cbv beta iota delta [bind ret obind fst snd].
intros [= <- <-]. simpl.
destruct Hrs as (_ & _ & Hcap1 & _ & Hiff & _).
split; [done|].
split.
- intros [= Hd]. apply bool_decide_eq_true in Hd.
  apply Hiff in Hd as (_ & Hd & Hle).
  by rewrite bool_decide_eq_false_2.
- intros [[= Hd] Hle]. apply bool_decide_eq_false in Hd.
  rewrite bool_decide_eq_true_2; [done|]. by apply Hiff.
Qed.

Lemma paired_sym pv1 pv2 w : paired N pv1 pv2 w -> paired N pv2 pv1 w.
Proof.
intros (H1 & H2 & Hne & Hd). unfold paired. split_and!; try done.
intros E. rewrite E. by apply Hd.
Qed.

Lemma paired_step o pv1 pv2 w pv1' w' :
paired N pv1 pv2 w ->
apply N growth o pv1 w = Ret (pv1', w') ->
paired N pv1' pv2 w'
/\ placed_vector.elements pv2 w' = placed_vector.elements pv2 w
/\ placed_vector.is_in_place pv2 w' = placed_vector.is_in_place pv2 w.
Proof.
intros (H1 & H2 & Hne & Hd) E.
pose proof (apply_outcome o pv1 w H1) as Ho.
pose proof (apply_effect N growth growth_gt o pv1 w H1) as He.
rewrite E in Ho, He. destruct Ho as [H1' _].
destruct He as [(Hthis & Hpl & Hst & Hlv) _].
assert (Hf : data_of pv2 <> nullptr -> foreign pv1 w (data_of pv2)).
{ intros Hnn. unfold foreign. split_and!; [done| | |].
  - intros Eq. apply Hnn. rewrite Eq. by apply Hd.
  - destruct H2 as (_ & Hown & _). unfold owns_block in Hown.
    destruct (data_of pv2) as [|o2|k2]; [done| |done].
    destruct Hown as [-> _]. congruence.
  - intros k Ek. destruct H2 as (_ & Hown & _). unfold owns_block in Hown.
    rewrite Ek in Hown. apply Hown. }
destruct (consistent_frame N true pv2 w w' H2) as (H2' & Hel & Hin).
{ apply Hpl. congruence. }
{ intros Hnn. by apply Hst, Hf. }
{ intros k Ek. assert (Hnn : data_of pv2 <> nullptr) by (by rewrite Ek).
  specialize (Hf Hnn). split.
  - apply Hlv. by rewrite <- Ek.
  - destruct (Hst _ Hf) as [(_ & _ & _ & Hlt') _]. by apply Hlt'. }
split; [|done]. unfold paired. split_and!; try done.
- congruence.
- intros Eq. destruct (decide (data_of pv2 = nullptr)) as [Hn|Hnn].
  + congruence.
  + destruct (Hst _ (Hf Hnn)) as [(_ & Hne' & _) _]. congruence.
Qed.

Lemma paired_construct s1 s2 w0 pv1 w1 pv2 w2 :
s1 <> s2 ->
placed_vector.construct N s1 w0 = Ret (pv1, w1) ->
placed_vector.construct N s2 w1 = Ret (pv2, w2) ->
paired N pv1 pv2 w2.
Proof.
intros Hne E1 E2.
destruct (construct_spec N s1 w0) as (pv & w & E & Hc1 & Ht1 & _).
rewrite E in E1. injection E1 as -> ->.
destruct (construct_spec N s2 w1) as (pv & w & E' & Hc2 & Ht2 & _).
rewrite E' in E2. injection E2 as -> ->.
destruct (construct_frame N _ _ _ _ E') as (Hpl & Hst & Hfs & Hd2).
assert (Hd1 : data_of pv1 <> bytes_of s2).
{ destruct Hc1 as (_ & Hown & _). unfold owns_block in Hown.
  destruct (data_of pv1) as [|o|k]; [done| |done].
  destruct Hown as [-> _]. congruence. }
destruct (consistent_frame N true pv1 w1 w2 Hc1) as (Hc1' & _).
{ apply Hpl. congruence. }
{ intros _. by apply Hst. }
{ intros k Ek. rewrite Hfs. split; [done|].
  destruct Hc1 as (_ & Hown & _). unfold owns_block in Hown.
  rewrite Ek in Hown. apply Hown. }
unfold paired. split_and!; try done; [congruence|].
intros Eq. destruct Hd2 as [Hd2|Hd2]; congruence.
Qed.

Lemma pair_reachable_paired pv1 pv2 w :
pair_reachable N growth pv1 pv2 w -> paired N pv1 pv2 w.
Proof.
induction 1 as [s1 s2 w0 pv1 w1 pv2 w2 Hne E1 E2
               |o pv1 pv2 w pv1' w' _ IH E
               |o pv1 pv2 w pv2' w' _ IH E].
- by eapply paired_construct.
- by destruct (paired_step o _ _ _ _ _ IH E).
- apply paired_sym.
  by destruct (paired_step o _ _ _ _ _ (paired_sym _ _ _ IH) E).
Qed.

(** X13: two default-constructed placed_vectors at different addresses do
  not interfere: whatever has been done to either, an operation on one
  leaves the elements of the other, and what its [is_in_place()]
  returns, as they were. *)
Theorem vectors_independent o pv1 pv2 w :
pair_reachable N growth pv1 pv2 w ->
(forall pv1' w',
   apply N growth o pv1 w = Ret (pv1', w') ->
   placed_vector.elements pv2 w' = placed_vector.elements pv2 w
   /\ placed_vector.is_in_place pv2 w' = placed_vector.is_in_place pv2 w)
/\ (forall pv2' w',
      apply N growth o pv2 w = Ret (pv2', w') ->
      placed_vector.elements pv1 w' = placed_vector.elements pv1 w
      /\ placed_vector.is_in_place pv1 w'
         = placed_vector.is_in_place pv1 w).
Proof.
intros Hp. apply pair_reachable_paired in Hp. split.
- intros pv1' w' E. by destruct (paired_step o _ _ _ _ _ Hp E) as (_ & ? & ?).
- intros pv2' w' E.
  by destruct (paired_step o _ _ _ _ _ (paired_sym _ _ _ Hp) E)
    as (_ & ? & ?).
Qed.
End LifeProperties.

(** * The further properties on a placed_vector<int, 4> *)

Lemma allocate_deallocate_inline_witness :
  exists w1,
    allocator_in_place.allocate (allocator_in_place.construct (Some 7))
      3 (snd shrunk) = Ret (bytes_of 7, w1)
    /\ allocator_in_place.deallocate (allocator_in_place.construct (Some 7))
         (bytes_of 7) 3 w1 = Ret (tt, snd shrunk).
Proof.
  apply (allocate_deallocate_inline (allocator_in_place.construct (Some 7))
           7 (place_manager.construct (bytes_of 7) 4) 3 3 (snd shrunk)).
  - reflexivity.
  - vm_compute. reflexivity.
  - reflexivity.
  - reflexivity.
  - simpl. lia.
Defined.

Lemma inline_buffer_handed_out_once_witness :
  allocator_in_place.is_in_place (allocator_in_place.construct (Some 7))
    handed_out = Ret true
  /\ allocator_in_place.allocate (allocator_in_place.construct (Some 7))
       1 handed_out
     = std_allocator.allocate 1 handed_out.
Proof.
  apply (inline_buffer_handed_out_once
           (allocator_in_place.construct (Some 7)) 7
           (place_manager.construct (bytes_of 7) 4) 3 1
           (snd shrunk) (bytes_of 7) handed_out).
  - reflexivity.
  - vm_compute. reflexivity.
  - reflexivity.
  - reflexivity.
  - simpl. lia.
  - vm_compute. reflexivity.
Defined.

Lemma vector_without_place_stuck_witness :
  vector.reserve 5 stray empty_world <> Ret (stray, empty_world)
  /\ vector.push_back growth_by_half 2 stray empty_world
     <> Ret (stray, empty_world).
Proof.
  destruct (vector_without_place_stuck growth_by_half stray empty_world)
    as (Hreserve & _ & Hpush).
  - reflexivity.
  - simpl. discriminate.
  - split.
    + apply Hreserve. simpl. lia.
    + apply Hpush. reflexivity.
Defined.

Lemma copy_construct_on_fresh_storage_witness :
  (exists pv w',
     placed_vector.copy_construct 4 8 (fst fresh) (snd fresh) = Ret (pv, w')
     /\ placed_vector.size pv = 0
     /\ placed_vector.capacity pv = 0
     /\ data_of pv = nullptr
     /\ free_store w' = free_store (snd fresh))
  /\ placed_vector.copy_construct 4 8 (fst (grown 3)) (snd fresh)
     = Undefined.
Proof.
  split.
  - apply (copy_construct_on_fresh_storage 4 8 (fst fresh) (snd fresh)).
    + vm_compute. reflexivity.
    + vm_compute. reflexivity.
  - apply (copy_construct_on_fresh_storage 4 8 (fst (grown 3)) (snd fresh)).
    + vm_compute. reflexivity.
    + vm_compute. lia.
Defined.

Lemma operations_defined_witness :
  apply 4 growth_by_half PopBack (fst fresh) (snd fresh) = Undefined.
Proof.
  apply (operations_defined 4 growth_by_half growth_by_half_gt PopBack
           (fst fresh) (snd fresh)).
  - apply after_reachable. vm_compute. reflexivity.
  - left. split; [reflexivity | vm_compute; reflexivity].
Defined.

Lemma operations_act_on_elements_witness :
  placed_vector.elements (fst appended) (snd appended) = [1; 2; 3; 9]
  /\ length (placed_vector.elements (fst appended) (snd appended))
     = placed_vector.size (fst appended).
Proof.
  apply (operations_act_on_elements 4 growth_by_half growth_by_half_gt
           (PushBack 9) (fst shrunk) (snd shrunk)
           (fst appended) (snd appended)).
  - apply after_reachable. vm_compute. reflexivity.
  - vm_compute. reflexivity.
Defined.

Lemma put_in_place_idempotent_witness :
  placed_vector.capacity (fst settled) = 4
  /\ held (fst settled) = 0
  /\ avail (free_store (snd settled))
     = avail (free_store (snd shrunk)) + held (fst shrunk)
  /\ placed_vector.put_in_place 4 (fst settled) (snd settled)
     = Ret ((true, fst settled), snd settled).
Proof.
  apply (put_in_place_idempotent 4 growth_by_half growth_by_half_gt
           (fst shrunk) (snd shrunk) (fst settled) (snd settled)).
  - lia.
  - apply after_reachable. vm_compute. reflexivity.
  - vm_compute. reflexivity.
Defined.

Lemma in_place_bounds_witness :
  (exists b,
     placed_vector.is_in_place (fst (grown 6)) (snd (grown 6)) = Ret b)
  /\ (placed_vector.is_in_place (fst (grown 6)) (snd (grown 6)) = Ret true ->
      placed_vector.capacity (fst (grown 6)) <= 4)
  /\ (4 < placed_vector.size (fst (grown 6)) ->
      placed_vector.is_in_place (fst (grown 6)) (snd (grown 6)) = Ret false).
Proof.
  apply (in_place_bounds 4 growth_by_half growth_by_half_gt
           (fst (grown 6)) (snd (grown 6))).
  apply after_reachable. vm_compute. reflexivity.
Defined.

Lemma fallback_memory_conserved_witness :
  avail (free_store (snd (grown 6))) + held (fst (grown 6))
  = avail (free_store empty_world).
Proof.
  apply (fallback_memory_conserved 4 growth_by_half growth_by_half_gt
           7 empty_world (map PushBack (seq 1 6))
           (fst (grown 6)) (snd (grown 6))).
  vm_compute. reflexivity.
Defined.

Lemma put_in_place_enough_memory_witness :
  exists pv' w',
    placed_vector.put_in_place 4 (fst shrunk) (snd shrunk)
    = Ret ((bool_decide (placed_vector.size (fst shrunk) <= 4), pv'), w').
Proof.
  apply (put_in_place_enough_memory 4 growth_by_half growth_by_half_gt
           (fst shrunk) (snd shrunk)).
  - lia.
  - apply after_reachable. vm_compute. reflexivity.
  - vm_compute. lia.
Defined.

Lemma shrink_to_fit_leaves_place_witness :
  exists pv' w',
    placed_vector.shrink_to_fit (fst (grown 2)) (snd (grown 2))
      = Ret (pv', w')
    /\ placed_vector.is_in_place pv' w' = Ret false
    /\ placed_vector.capacity pv' = placed_vector.size (fst (grown 2))
    /\ placed_vector.elements pv' w'
       = placed_vector.elements (fst (grown 2)) (snd (grown 2)).
Proof.
  apply (shrink_to_fit_leaves_place 4 growth_by_half growth_by_half_gt
           (fst (grown 2)) (snd (grown 2))).
  - apply after_reachable. vm_compute. reflexivity.
  - vm_compute. reflexivity.
  - vm_compute. lia.
  - vm_compute. discriminate.
Defined.

Lemma reserve_returns_in_place_witness :
  exists pv' w',
    placed_vector.reserve 3 (fst trimmed) (snd trimmed) = Ret (pv', w')
    /\ placed_vector.is_in_place pv' w' = Ret true
    /\ placed_vector.capacity pv' = 3
    /\ placed_vector.elements pv' w'
       = placed_vector.elements (fst trimmed) (snd trimmed)
    /\ avail (free_store w')
       = avail (free_store (snd trimmed)) + held (fst trimmed).
Proof.
  apply (reserve_returns_in_place 4 growth_by_half growth_by_half_gt
           (fst trimmed) (snd trimmed) 3).
  - apply after_reachable. vm_compute. reflexivity.
  - vm_compute. reflexivity.
  - vm_compute. lia.
  - lia.
Defined.

Lemma put_in_place_needs_fallback_witness :
  placed_vector.elements (fst tight) (snd tight) = [1; 2]
  /\ placed_vector.put_in_place 4 (fst tight) (snd tight) = Throw.
Proof.
  split; [vm_compute; reflexivity|].
  apply (put_in_place_needs_fallback 4 growth_by_half growth_by_half_gt
           (fst tight) (snd tight)).
  - apply (run_reachable 4 growth_by_half 7 tight_world
             [PushBack 1; PushBack 2; ShrinkToFit]).
    vm_compute. reflexivity.
  - vm_compute. lia.
  - vm_compute. intros [H _]. discriminate H.
  - vm_compute. lia.
Defined.

Lemma vectors_independent_witness :
  placed_vector.is_in_place (fst twins_after) (snd twins_after) = Ret false
  /\ placed_vector.elements (snd (fst twins)) (snd twins_after)
    = placed_vector.elements (snd (fst twins)) (snd twins)
  /\ placed_vector.is_in_place (snd (fst twins)) (snd twins_after)
     = placed_vector.is_in_place (snd (fst twins)) (snd twins).
Proof.
  destruct (vectors_independent 4 growth_by_half growth_by_half_gt ShrinkToFit
              (fst (fst twins)) (snd (fst twins)) (snd twins)) as [Hleft _].
  - eapply (pair_left 4 growth_by_half (PushBack 3)).
    eapply (pair_left 4 growth_by_half (PushBack 2)).
    eapply (pair_left 4 growth_by_half (PushBack 1)).
    + eapply (pair_construct 4 growth_by_half 7 8 empty_world).
      * lia.
      * vm_compute. reflexivity.
      * vm_compute. reflexivity.
    + vm_compute. reflexivity.
    + vm_compute. reflexivity.
    + vm_compute. reflexivity.
  - split; [vm_compute; reflexivity|].
    apply (Hleft (fst twins_after) (snd twins_after)).
    vm_compute. reflexivity.
Defined.

Lemma descriptor_stays_enabled_witness :
  exists pm,
    places (snd settled) !! 7 = Some pm
    /\ place_manager.is_enabled pm = true
    /\ place_manager.size pm = 4
    /\ place_manager.p_bytes pm = bytes_of 7.
Proof.
  apply (descriptor_stays_enabled 4 growth_by_half growth_by_half_gt
           (fst settled) (snd settled)).
  apply after_reachable. vm_compute. reflexivity.
Defined.

Lemma push_back_on_full_witness :
  placed_vector.capacity (fst regrown) = growth_by_half 3
  /\ (placed_vector.is_in_place (fst regrown) (snd regrown) = Ret true
      <-> placed_vector.is_in_place (fst reserved) (snd reserved) = Ret false
          /\ growth_by_half 3 <= 4).
Proof.
  apply (push_back_on_full 4 growth_by_half growth_by_half_gt 4
           (fst reserved) (snd reserved) (fst regrown) (snd regrown)).
  - apply after_reachable. vm_compute. reflexivity.
  - vm_compute. reflexivity.
  - vm_compute. reflexivity.
Defined.
